(** * Ride assignment: a shallow embedding of [assign_driver.py]

    The script reads three sheets (students, drivers, travel times), builds
    an integer program with PuLP, hands it to CBC and reads the solved
    values back into three result tables.  This development embeds the
    script stage by stage and states its properties over the embedding.

    Conventions.
    - Labels (locations, driver names, sheet and column names) are strings.
    - A number read from a sheet, and every solver value, is a Python float;
      it is modelled by the rational it denotes ([Q]).  Integers of the
      script (capacities, demands, weights, decision values of a feasible
      point) are [Z].
    - A Python object that the script tests with [is] is a [pyval], so that
      the identity test against the sentinel and the test against [None]
      are the tests of the source.
    - A run either completes or raises; printing is a trace of events. *)

From Stdlib Require Import List String Ascii Bool ZArith QArith Qround Lia Lqa.
From Stdlib Require Import Sorting.Mergesort Sorting.Permutation Structures.Orders.
Import ListNotations.

Local Open Scope string_scope.
Local Open Scope Z_scope.

(** ** Configuration constants (lines 19-38) *)

Module Config.

Definition SHEET_STUDENT : string := "students".
Definition SHEET_DRIVER : string := "drivers".
Definition SHEET_DISTANCE : string := "campus_distance".

Definition LOCATION_COL : string := "location".
Definition CAPACITY_COL : string := "capacity".

Definition BIG_UBER : Z := 10 ^ 8.
Definition BIG_DRIVER : Z := 10 ^ 5.
Definition SMALL_TRIP : Z := 10 ^ 4.
Definition BIG_DISTANCE : Z := 10 ^ 6.

End Config.

(** ** Python values and the few built-ins the script applies to them *)

Module Py.

(** The objects ever bound to [val] and stored in [travel]: the module
    level int [BIG_DISTANCE], a fresh float, and ([None]) the object the
    pair filter compares against. *)
Inductive pyval : Type :=
| PyNone
| PyInt (z : Z)
| PyFloat (q : Q).

(** [v is BIG_DISTANCE]: identity with the int object of the constant.
    A float produced by [float(raw)] is never that object, whatever its
    numeric value. *)
Definition is_BIG_DISTANCE (v : pyval) : bool :=
  match v with
  | PyInt z => z =? Config.BIG_DISTANCE
  | _ => false
  end.

(** [v is not None] *)
Definition is_not_None (v : pyval) : bool :=
  match v with
  | PyNone => false
  | _ => true
  end.

(** The number a stored travel value denotes when it is multiplied or
    added.  [None] has no numeric reading in Python; the pair filter
    keeps it away from arithmetic, and [0] stands in to keep this total. *)
Definition num (v : pyval) : Q :=
  match v with
  | PyNone => 0%Q
  | PyInt z => inject_Z z
  | PyFloat q => q
  end.

(** [pulp.value(v) or 0]: [None] and [0.0] are falsy. *)
Definition or_zero (v : option Q) : Q :=
  match v with
  | None => 0%Q
  | Some q => q
  end.

(** [round(q)] with one argument: nearest integer, ties to even. *)
Definition round (q : Q) : Z :=
  let f := Qfloor q in
  match Qcompare (q - inject_Z f) (1 # 2) with
  | Lt => f
  | Gt => f + 1
  | Eq => if Z.even f then f else f + 1
  end.

(** [int(q)] on a float: truncation toward zero. *)
Definition int_of_float (q : Q) : Z :=
  if Qle_bool 0 q then Qfloor q else Qceiling q.

(** [int(round(pulp.value(v) or 0))] *)
Definition int_round_or_zero (v : option Q) : Z := round (or_zero v).

End Py.

(** ** Outcomes: exceptions and the print trace *)

Inductive exn : Type :=
| ValueError (msg : string)
| TypeError (msg : string)
| PulpError (msg : string).

Inductive event : Type :=
| PrintBanner
| PrintIsolatedWarning (isolated : list string)
| PrintAdjusted
| PrintSolverStatus (status : string).

Inductive result (A : Type) : Type :=
| Ok (a : A)
| Raise (e : exn).
Arguments Ok {A} a.
Arguments Raise {A} e.

(** A computation yields what it printed and how it ended. *)
Definition M (A : Type) : Type := (list event * result A)%type.

Definition ret {A} (a : A) : M A := ([], Ok a).
Definition raise {A} (e : exn) : M A := ([], Raise e).
Definition print (e : event) : M unit := ([e], Ok tt).

Definition bind {A B} (m : M A) (f : A -> M B) : M B :=
  match m with
  | (out, Ok a) => let '(out', r) := f a in ((out ++ out')%list, r)
  | (out, Raise e) => (out, Raise e)
  end.

Declare Scope run_scope.
Delimit Scope run_scope with run.
Notation "x <- m ;; k" := (bind m (fun x => k))
  (at level 61, m at next level, right associativity) : run_scope.
Notation "m ;;; k" := (bind m (fun _ => k))
  (at level 61, right associativity) : run_scope.

Definition when (b : bool) (m : M unit) : M unit := if b then m else ret tt.

Definition result_of {A} (m : M A) : result A := snd m.
Definition printed {A} (m : M A) : list event := fst m.

(** ** The workbook as the script sees it *)

Definition mem (s : string) (l : list string) : bool := existsb (String.eqb s) l.

(** The students sheet: its column names and, when present, the cells of
    the [location] column ([None] for a blank cell, which pandas reads as
    NaN). *)
Record students_sheet : Type := {
  students_columns : list string;
  students_location : list (option string)
}.

(** The drivers sheet: its column names, the first column rendered by
    [astype(str)], and each column rendered by [astype(int)]. *)
Record drivers_sheet : Type := {
  drivers_columns : list string;
  drivers_first : list string;
  drivers_int : string -> list Z
}.

(** The distance sheet read with [index_col=0]: row labels, column labels
    and the cells ([None] for NaN). *)
Record distance_sheet : Type := {
  dist_index : list string;
  dist_columns : list string;
  dist_loc : string -> string -> option Q
}.

Record workbook : Type := {
  sheet_names : list string;
  students_df : students_sheet;
  drivers_df : drivers_sheet;
  dist_df : distance_sheet
}.

(** ** Input normaliser (lines 42-101) *)

Module StringLeb <: TotalLeBool.
Definition t := string.
Definition leb := String.leb.
Definition leb_total := String.leb_total.
End StringLeb.

Module StringSort := Sort StringLeb.

Module Normalizer.
Import Config.

(** Lines 43-54: the sheet and column checks. *)
Definition check_schema (wb : workbook) : M unit :=
  (when (negb (mem SHEET_STUDENT (sheet_names wb))
         || negb (mem SHEET_DRIVER (sheet_names wb))
         || negb (mem SHEET_DISTANCE (sheet_names wb)))
        (raise (ValueError "Excel must contain sheets named: students, drivers and campus_distance")) ;;;
   when (negb (mem LOCATION_COL (students_columns (students_df wb))))
        (raise (ValueError "students sheet must have a 'location' column")) ;;;
   when (negb (mem CAPACITY_COL (drivers_columns (drivers_df wb)))
         && negb (mem "num_students" (drivers_columns (drivers_df wb))))
        (raise (ValueError "drivers sheet must have 'capacity' (or 'num_students') column")))%run.

(** Lines 57-60 and 100: the column read as capacity after the rename. *)
Definition capacity_source (d : drivers_sheet) : string :=
  if mem CAPACITY_COL (drivers_columns d) then CAPACITY_COL else "num_students".

(** Line 63: [groupby(LOCATION_COL).size()].  pandas drops the NaN keys,
    sorts the distinct keys and counts the rows of each. *)
Fixpoint present (cells : list (option string)) : list string :=
  match cells with
  | [] => []
  | Some l :: rest => l :: present rest
  | None :: rest => present rest
  end.

Definition groupby_size (cells : list (option string)) : list (string * Z) :=
  let rows := present cells in
  map (fun l => (l, Z.of_nat (count_occ string_dec rows l)))
      (StringSort.sort (nodup string_dec rows)).

(** [demand[i]] *)
Fixpoint dict_get {V} (d : list (string * V)) (k : string) : option V :=
  match d with
  | [] => None
  | (k', v) :: d' => if String.eqb k k' then Some v else dict_get d' k
  end.

(** [d[k] = v]: an existing key keeps its place and takes the new value. *)
Fixpoint dict_set {V} (d : list (string * V)) (k : string) (v : V) : list (string * V) :=
  match d with
  | [] => [(k, v)]
  | (k', v') :: d' => if String.eqb k k' then (k', v) :: d' else (k', v') :: dict_set d' k v
  end.

(** Lines 69-71: the locations missing from either axis, sorted. *)
Definition isolated_locations (dist : distance_sheet) (locations : list string) : list string :=
  let missing_rows := filter (fun l => negb (mem l (dist_index dist))) locations in
  let missing_cols := filter (fun l => negb (mem l (dist_columns dist))) locations in
  StringSort.sort (nodup string_dec (missing_rows ++ missing_cols)%list).

(** Lines 82-95: the body of the double loop, the value stored at
    [travel[i][j]]. *)
Definition travel_entry (dist : distance_sheet) (i j : string) : Py.pyval :=
  let val := Py.PyInt BIG_DISTANCE in
  let val :=
    if mem i (dist_index dist) && mem j (dist_columns dist) then
      match dist_loc dist i j with
      | Some raw => Py.PyFloat raw
      | None => val
      end
    else val in
  let val :=
    if Py.is_BIG_DISTANCE val && mem j (dist_index dist) && mem i (dist_columns dist) then
      match dist_loc dist j i with
      | Some raw => Py.PyFloat raw
      | None => val
      end
    else val in
  val.

(** Lines 78-95: the dict of dicts over the locations. *)
Definition build_travel (dist : distance_sheet) (locations : list string)
  : list (string * list (string * Py.pyval)) :=
  map (fun i => (i, map (fun j => (j, travel_entry dist i j)) locations)) locations.

(** [travel[i][k]]; both keys are locations wherever the script reads
    it, so the lookup cannot miss there ([None] otherwise, for totality). *)
Definition travel_get (travel : list (string * list (string * Py.pyval))) (i k : string) : Py.pyval :=
  match dict_get travel i with
  | Some row =>
      match dict_get row k with
      | Some v => v
      | None => Py.PyNone
      end
  | None => Py.PyNone
  end.

(** Line 101: the dict comprehension; a repeated name keeps its first
    position and takes the capacity of its last row. *)
Definition build_driver_caps (drivers : list string) (cap_series : list Z) : list (string * Z) :=
  fold_left (fun d nc => dict_set d (fst nc) (snd nc)) (combine drivers cap_series) [].

Record inputs : Type := {
  demand : list (string * Z);
  locations : list string;
  travel : list (string * list (string * Py.pyval));
  drivers : list string;
  cap_series : list Z;
  driver_caps : list (string * Z)
}.

(** Lines 41-101 in order. *)
Definition normalize (wb : workbook) : M inputs :=
  (print PrintBanner ;;;
   check_schema wb ;;;
   let demand := groupby_size (students_location (students_df wb)) in
   let locations := map fst demand in
   let isolated := isolated_locations (dist_df wb) locations in
   when (match isolated with [] => false | _ => true end)
        (print (PrintIsolatedWarning isolated)) ;;;
   let travel := build_travel (dist_df wb) locations in
   let drivers := drivers_first (drivers_df wb) in
   let cap_series := drivers_int (drivers_df wb) (capacity_source (drivers_df wb)) in
   ret {| demand := demand; locations := locations; travel := travel;
          drivers := drivers; cap_series := cap_series;
          driver_caps := build_driver_caps drivers cap_series |})%run.

End Normalizer.

(** ** Assignment model builder (lines 104-187) *)

Module Model.
Import Config Normalizer.

(** The PuLP variable objects, named by the dict keys that reach them:
    [x[j][i]], [y[j][i]], [u[j]], [w[j][idx]] and [uber_y[i]].  Two
    indices with equal keys reach one and the same object. *)
Inductive var : Type :=
| X (j i : string)
| Y (j i : string)
| U (j : string)
| W (j : string) (idx : nat)
| Uber (i : string).

Definition var_eq_dec (a b : var) : {a = b} + {a <> b}.
Proof. decide equality; first [apply string_dec | apply Nat.eq_dec]. Defined.

(** A declared variable with its bounds; every category of the script
    is integral ([Binary] is [Integer] within 0..1). *)
Record decl : Type := {
  d_var : var;
  d_low : option Z;
  d_up : option Z
}.

Definition binary (v : var) : decl := {| d_var := v; d_low := Some 0; d_up := Some 1 |}.
Definition integer_from_0 (v : var) : decl := {| d_var := v; d_low := Some 0; d_up := None |}.

(** Affine expressions with coefficients in [K]. *)
Record affine (K : Type) : Type := {
  terms : list (K * var);
  const : K
}.
Arguments terms {K} a.
Arguments const {K} a.

(** The expressions of the constraints have integer coefficients. *)
Definition of_var (v : var) : affine Z := {| terms := [(1, v)]; const := 0 |}.
Definition lit (k : Z) : affine Z := {| terms := []; const := k |}.
Definition scale (k : Z) (e : affine Z) : affine Z :=
  {| terms := map (fun t => (k * fst t, snd t)) (terms e); const := k * const e |}.
Definition plus (a b : affine Z) : affine Z :=
  {| terms := (terms a ++ terms b)%list; const := const a + const b |}.
Definition minus (a b : affine Z) : affine Z := plus a (scale (-1) b).
Definition lpSum (l : list (affine Z)) : affine Z := fold_right plus (lit 0) l.

(** The objective mixes them with the float travel times. *)
Definition inj (e : affine Z) : affine Q :=
  {| terms := map (fun t => (inject_Z (fst t), snd t)) (terms e); const := inject_Z (const e) |}.
Definition qscale (k : Q) (e : affine Q) : affine Q :=
  {| terms := map (fun t => (k * fst t, snd t)%Q) (terms e); const := (k * const e)%Q |}.
Definition qplus (a b : affine Q) : affine Q :=
  {| terms := (terms a ++ terms b)%list; const := (const a + const b)%Q |}.
Definition qlpSum (l : list (affine Q)) : affine Q :=
  fold_right qplus {| terms := []; const := 0%Q |} l.
Definition qterm (k : Q) (v : var) : affine Q := {| terms := [(k, v)]; const := 0%Q |}.

Inductive sense : Type := LE | GE | EQ.

Record constraint : Type := {
  c_name : string;
  c_lhs : affine Z;
  c_sense : sense;
  c_rhs : affine Z
}.

Record model : Type := {
  variables : list decl;
  constraints : list constraint;
  objective : affine Q
}.

(** Lines 118-124: the nested loops over [a_idx < b_idx]. *)
Fixpoint build_pairs (travel : list (string * list (string * Py.pyval)))
                     (locs : list string) : list (string * string) :=
  match locs with
  | [] => []
  | i :: later =>
      (map (fun k => (i, k))
           (filter (fun k => Py.is_not_None (travel_get travel i k)) later)
       ++ build_pairs travel later)%list
  end.

(** Line 128 and the loops [for idx in range(len(pairs))]. *)
Definition indexed (pairs : list (string * string)) : list (nat * (string * string)) :=
  combine (seq 0 (List.length pairs)) pairs.

(** [driver_caps[j]] and [demand[i]], read at keys the dicts hold. *)
Definition cap_of (inp : inputs) (j : string) : Z :=
  match dict_get (driver_caps inp) j with Some c => c | None => 0 end.
Definition demand_of (inp : inputs) (i : string) : Z :=
  match dict_get (demand inp) i with Some n => n | None => 0 end.

Section Build.
Variable inp : inputs.

Let ds := drivers inp.
Let ls := locations inp.

Definition pairs : list (string * string) := build_pairs (travel inp) ls.

(** Lines 108-126 and 163. *)
Definition declared : list decl :=
  (flat_map (fun j => map (fun i => binary (X j i)) ls) ds
   ++ flat_map (fun j => map (fun i => integer_from_0 (Y j i)) ls) ds
   ++ map (fun j => binary (U j)) ds
   ++ flat_map (fun j => map (fun idx => binary (W j idx)) (seq 0 (List.length pairs))) ds
   ++ map (fun i => integer_from_0 (Uber i)) ls)%list.

(** The constraints carry the names the f-strings give them.  What PuLP
    does with a name (replacing characters, refusing a repeated name) is
    outside the script and is not modelled. *)

(** Lines 133-137. *)
Definition cap_link : list constraint :=
  flat_map (fun j =>
    map (fun i =>
      {| c_name := "cap_link_" ++ j ++ "_" ++ i;
         c_lhs := of_var (Y j i); c_sense := LE;
         c_rhs := scale (cap_of inp j) (of_var (X j i)) |}) ls) ds.

(** Lines 140-142. *)
Definition driver_cap : list constraint :=
  map (fun j =>
    {| c_name := "driver_cap_" ++ j;
       c_lhs := lpSum (map (fun i => of_var (Y j i)) ls); c_sense := LE;
       c_rhs := scale (cap_of inp j) (of_var (U j)) |}) ds.

(** Lines 145-146. *)
Definition use_def : list constraint :=
  map (fun j =>
    {| c_name := "use_def_" ++ j;
       c_lhs := lpSum (map (fun i => of_var (X j i)) ls); c_sense := LE;
       c_rhs := scale 1000 (of_var (U j)) |}) ds.

(** Lines 150-151. *)
Definition max2stops : list constraint :=
  map (fun j =>
    {| c_name := "max2stops_" ++ j;
       c_lhs := lpSum (map (fun i => of_var (X j i)) ls); c_sense := LE;
       c_rhs := lit 2 |}) ds.

(** Lines 154-159. *)
Definition pair_link : list constraint :=
  flat_map (fun j =>
    flat_map (fun e =>
      let idx := fst e in
      let i := fst (snd e) in
      let k := snd (snd e) in
      [ {| c_name := "w_le_x1_" ++ j ++ "_" ++ i ++ "_" ++ k;
           c_lhs := of_var (W j idx); c_sense := LE; c_rhs := of_var (X j i) |};
        {| c_name := "w_le_x2_" ++ j ++ "_" ++ i ++ "_" ++ k;
           c_lhs := of_var (W j idx); c_sense := LE; c_rhs := of_var (X j k) |};
        {| c_name := "w_ge_summinus1_" ++ j ++ "_" ++ i ++ "_" ++ k;
           c_lhs := of_var (W j idx); c_sense := GE;
           c_rhs := minus (plus (of_var (X j i)) (of_var (X j k))) (lit 1) |} ])
      (indexed pairs)) ds.

(** Lines 165-167. *)
Definition demand_cover : list constraint :=
  map (fun i =>
    {| c_name := "demand_cover_" ++ i;
       c_lhs := plus (lpSum (map (fun j => of_var (Y j i)) ds)) (of_var (Uber i));
       c_sense := EQ;
       c_rhs := lit (demand_of inp i) |}) ls.

(** Lines 179-185. *)
Definition total_drivers_used : affine Z := lpSum (map (fun j => of_var (U j)) ds).

Definition total_travel_time : affine Q :=
  qlpSum (flat_map (fun j =>
            map (fun e => qterm (Py.num (travel_get (travel inp) (fst (snd e)) (snd (snd e))))
                                (W j (fst e)))
                (indexed pairs)) ds).

Definition uber_penalty : affine Z := lpSum (map (fun i => of_var (Uber i)) ls).

(** Line 187. *)
Definition objective_expr : affine Q :=
  qplus (qplus (qscale (inject_Z BIG_UBER) (inj uber_penalty))
               (qscale (inject_Z BIG_DRIVER) (inj total_drivers_used)))
        (qscale (inject_Z SMALL_TRIP) total_travel_time).

Definition build : model :=
  {| variables := declared;
     constraints := (cap_link ++ driver_cap ++ use_def ++ max2stops
                     ++ pair_link ++ demand_cover)%list;
     objective := objective_expr |}.

End Build.

(** *** Points of the model and their feasibility *)

Definition solution : Type := var -> Z.

Definition eval (sol : solution) (e : affine Z) : Z :=
  fold_right (fun t acc => fst t * sol (snd t) + acc) (const e) (terms e).

Definition qeval (sol : solution) (e : affine Q) : Q :=
  fold_right (fun t acc => (fst t * inject_Z (sol (snd t)) + acc)%Q) (const e) (terms e).

Definition within (sol : solution) (d : decl) : bool :=
  match d_low d with Some lo => lo <=? sol (d_var d) | None => true end
  && match d_up d with Some up => sol (d_var d) <=? up | None => true end.

Definition holds (sol : solution) (c : constraint) : bool :=
  match c_sense c with
  | LE => eval sol (c_lhs c) <=? eval sol (c_rhs c)
  | GE => eval sol (c_rhs c) <=? eval sol (c_lhs c)
  | EQ => eval sol (c_lhs c) =? eval sol (c_rhs c)
  end.

Definition feasible (m : model) (sol : solution) : Prop :=
  forallb (within sol) (variables m) = true
  /\ forallb (holds sol) (constraints m) = true.

Definition objective_value (m : model) (sol : solution) : Q := qeval sol (objective m).

(** The three totals the objective weighs. *)
Definition uber_total (inp : inputs) (sol : solution) : Z :=
  fold_right Z.add 0 (map (fun i => sol (Uber i)) (locations inp)).
Definition drivers_used (inp : inputs) (sol : solution) : Z :=
  fold_right Z.add 0 (map (fun j => sol (U j)) (drivers inp)).
Definition pair_cost (inp : inputs) (e : nat * (string * string)) : Q :=
  Py.num (travel_get (travel inp) (fst (snd e)) (snd (snd e))).
Definition driver_travel (inp : inputs) (sol : solution) (j : string) : Q :=
  fold_right Qplus 0%Q
    (map (fun e => (pair_cost inp e * inject_Z (sol (W j (fst e))))%Q) (indexed (pairs inp))).
Definition travel_total (inp : inputs) (sol : solution) : Q :=
  fold_right Qplus 0%Q (map (driver_travel inp sol) (drivers inp)).

End Model.


(** ** Solver invocation and status check (lines 191-195) *)

Module Solver.

(** The codes of [model.status] and the strings PuLP's [LpStatus] table
    gives them. *)
Inductive status : Type :=
| NotSolved
| Optimal
| Infeasible
| Unbounded
| Undefined.

Definition LpStatus (s : status) : string :=
  match s with
  | NotSolved => "Not Solved"
  | Optimal => "Optimal"
  | Infeasible => "Infeasible"
  | Unbounded => "Unbounded"
  | Undefined => "Undefined"
  end.

(** Line 194: the list the status string is tested against. *)
Definition quiet_statuses : list string :=
  ["Optimal"; "Not Solved"; "Integer Feasible"; "Optimal"].

(** Lines 194-195. *)
Definition report_status (s : status) : M unit :=
  when (negb (mem (LpStatus s) quiet_statuses))
       (print (PrintSolverStatus (LpStatus s))).

(** [pulp.value(v)] after the solve: the float CBC assigned, or [None]
    for a variable that was given no value. *)
Definition valuation : Type := Model.var -> option Q.

End Solver.

(** ** Result extractor (lines 198-253) *)

Module Extract.
Import Normalizer Model Solver.

Record assignment_row : Type := {
  a_driver : string;
  a_location : string;
  a_students_picked : Z;
  a_stop_flag : Z
}.

Record summary_row : Type := {
  s_driver : string;
  s_used : Z;
  s_stops : string;
  s_students_picked_total : Z;
  s_estimated_travel_time : Q
}.

Record report : Type := {
  driver_summary : list summary_row;
  driver_assignments : list assignment_row;
  uber : list (string * Z)
}.

Section Extraction.
Variable inp : inputs.
Variable value : valuation.

(** Line 200: [int(pulp.value(u[j]))], with neither [or 0] nor [round]. *)
Definition used_unguarded (j : string) : M Z :=
  match value (U j) with
  | Some q => ret (Py.int_of_float q)
  | None => raise (TypeError "int() argument must be a string, a bytes-like object or a real number, not 'NoneType'")
  end.

(** Lines 203-216: the rows one driver appends.  The locals [stops],
    [total_picked], [wpairs] and [travel_time_j] of this loop are written
    and never read; they are left out. *)
Definition rows_of (j : string) : list assignment_row :=
  flat_map (fun i =>
    let xi := Py.int_round_or_zero (value (X j i)) in
    let yi := Py.int_round_or_zero (value (Y j i)) in
    if yi =? 0 then []
    else [ {| a_driver := j; a_location := i; a_students_picked := yi; a_stop_flag := xi |} ])
    (locations inp).

(** Lines 198-216. *)
Fixpoint collect (ds : list string) (acc : list assignment_row) : M (list assignment_row) :=
  match ds with
  | [] => ret acc
  | j :: rest => (_ <- used_unguarded j ;; collect rest (acc ++ rows_of j)%list)%run
  end.

(** Lines 234-238. *)
Definition travel_time_of (j : string) : Q :=
  fold_left (fun t e =>
               if Py.int_round_or_zero (value (W j (fst e))) =? 1
               then (t + pair_cost inp e)%Q else t)
            (indexed (pairs inp)) 0%Q.

(** Lines 231-245. *)
Definition summary_of (j : string) : summary_row :=
  {| s_driver := j;
     s_used := Py.int_round_or_zero (value (U j));
     s_stops :=
       String.concat ", "
         (filter (fun i => Py.int_round_or_zero (value (X j i)) =? 1) (locations inp));
     s_students_picked_total :=
       Py.round (fold_left Qplus (map (fun i => Py.or_zero (value (Y j i))) (locations inp)) 0%Q);
     s_estimated_travel_time := travel_time_of j |}.

(** Lines 249-253. *)
Definition leftover : list (string * Z) :=
  fold_left (fun d i =>
               let left := Py.int_round_or_zero (value (Uber i)) in
               if 0 <? left then dict_set d i left else d)
            (locations inp) [].

(** Lines 198-253. *)
Definition extract : M report :=
  (rows <- collect (drivers inp) [] ;;
   ret {| driver_summary := map summary_of (drivers inp);
          driver_assignments := rows;
          uber := leftover |})%run.

End Extraction.
End Extract.

(** ** The run, from the workbook to the result tables *)

Section Pipeline.
Import Normalizer Model Solver Extract.

(** CBC is a black box that returns a status and the variable values. *)
Variable cbc : model -> status * valuation.

Definition main (wb : workbook) : M report :=
  (inp <- normalize wb ;;
   print PrintAdjusted ;;;
   let outcome := cbc (build inp) in
   report_status (fst outcome) ;;;
   extract inp (snd outcome))%run.

End Pipeline.

(** ** Statements of the specification, as predicates on the embedding *)

Module Spec.
Import Config Normalizer Model Solver.

(** A run that ended in a [ValueError]. *)
Definition value_error {A} (m : M A) : bool :=
  match result_of m with
  | Raise (ValueError _) => true
  | _ => false
  end.

(** A required sheet is absent. *)
Definition sheet_absent (wb : workbook) : Prop :=
  ~ In SHEET_STUDENT (sheet_names wb)
  \/ ~ In SHEET_DRIVER (sheet_names wb)
  \/ ~ In SHEET_DISTANCE (sheet_names wb).

(** The columns the interface section lists for the two tables:
    [student_name] and [location]; [driver_name] and one of [capacity],
    [num_students]. *)
Definition required_column_missing (wb : workbook) : Prop :=
  ~ In "student_name" (students_columns (students_df wb))
  \/ ~ In LOCATION_COL (students_columns (students_df wb))
  \/ ~ In "driver_name" (drivers_columns (drivers_df wb))
  \/ (~ In CAPACITY_COL (drivers_columns (drivers_df wb))
      /\ ~ In "num_students" (drivers_columns (drivers_df wb))).

(** The columns the script tests for. *)
Definition checked_column_missing (wb : workbook) : Prop :=
  ~ In LOCATION_COL (students_columns (students_df wb))
  \/ (~ In CAPACITY_COL (drivers_columns (drivers_df wb))
      /\ ~ In "num_students" (drivers_columns (drivers_df wb))).

(** The sheet holds a number for the ordered pair [(i, j)]. *)
Definition has_entry (dist : distance_sheet) (i j : string) : bool :=
  mem i (dist_index dist) && mem j (dist_columns dist)
  && match dist_loc dist i j with Some _ => true | None => false end.

(** Some direction of the pair resolves to a number. *)
Definition resolvable (dist : distance_sheet) (i k : string) : bool :=
  has_entry dist i k || has_entry dist k i.

(** Every pair of positions [a_idx < b_idx] of the location list. *)
Fixpoint later_pairs (ls : list string) : list (string * string) :=
  match ls with
  | [] => []
  | i :: later => (map (fun k => (i, k)) later ++ later_pairs later)%list
  end.

(** The capacity of the last row that carries the name [j]. *)
Fixpoint last_row_capacity (rows : list (string * Z)) (j : string) : option Z :=
  match rows with
  | [] => None
  | (n, c) :: rest =>
      match last_row_capacity rest j with
      | Some c' => Some c'
      | None => if String.eqb j n then Some c else None
      end
  end.

(** Every driver row has the capacity of its own row. *)
Definition own_capacity (inp : inputs) : Prop :=
  forall r j c,
    nth_error (drivers inp) r = Some j ->
    nth_error (cap_series inp) r = Some c ->
    cap_of inp j = c.

(** Two different driver rows reach different decision variables. *)
Definition own_variables (inp : inputs) : Prop :=
  forall r r' j j',
    r <> r' ->
    nth_error (drivers inp) r = Some j ->
    nth_error (drivers inp) r' = Some j' ->
    U j <> U j' /\ forall i, X j i <> X j' i /\ Y j i <> Y j' i.

(** The sum of the pickups at [i] over the driver rows. *)
Definition picked_at (inp : inputs) (sol : solution) (i : string) : Z :=
  fold_right Z.add 0 (map (fun j => sol (Y j i)) (drivers inp)).

(** The number of student rows whose location is [i]. *)
Definition students_at (wb : workbook) (i : string) : Z :=
  Z.of_nat (count_occ string_dec (present (students_location (students_df wb))) i).

End Spec.

(** ** Concrete workbooks and points used below *)

Module Scenario.
Import Config Normalizer Model Solver.

Definition all_sheets : list string := [SHEET_STUDENT; SHEET_DRIVER; SHEET_DISTANCE].

Definition students_AB : students_sheet :=
  {| students_columns := ["student_name"; "location"];
     students_location := [Some "A"; Some "B"] |}.

Definition one_driver (cap : Z) : drivers_sheet :=
  {| drivers_columns := ["driver_name"; "capacity"];
     drivers_first := ["d1"];
     drivers_int := fun c => if String.eqb c "capacity" then [cap] else [] |}.

Definition two_drivers (n1 n2 : string) (c1 c2 : Z) : drivers_sheet :=
  {| drivers_columns := ["driver_name"; "capacity"];
     drivers_first := [n1; n2];
     drivers_int := fun c => if String.eqb c "capacity" then [c1; c2] else [] |}.

(** A sheet over A and B with the given two off-diagonal cells. *)
Definition dist_AB (ab ba : option Q) : distance_sheet :=
  {| dist_index := ["A"; "B"];
     dist_columns := ["A"; "B"];
     dist_loc := fun i j =>
       if String.eqb i "A" && String.eqb j "B" then ab
       else if String.eqb i "B" && String.eqb j "A" then ba
       else if String.eqb i j then Some 0%Q else None |}.

(** A sheet that knows no location at all. *)
Definition dist_empty : distance_sheet :=
  {| dist_index := []; dist_columns := []; dist_loc := fun _ _ => None |}.

Definition workbook_of (d : drivers_sheet) (t : distance_sheet) : workbook :=
  {| sheet_names := all_sheets; students_df := students_AB; drivers_df := d; dist_df := t |}.

(** One student at A, one at B, 20000 apart, one driver with two seats. *)
Definition wb_far : workbook := workbook_of (one_driver 2) (dist_AB (Some (20000 # 1)) (Some (20000 # 1))).

(** The same two students, 11 apart, two drivers with two seats each. *)
Definition wb_near : workbook :=
  workbook_of (two_drivers "d1" "d2" 2 2) (dist_AB (Some (11 # 1)) (Some (11 # 1))).

(** The same two students, 10 apart, one driver with two seats. *)
Definition wb_ten : workbook := workbook_of (one_driver 2) (dist_AB (Some (10 # 1)) (Some (10 # 1))).

(** The two directions of the sheet disagree. *)
Definition wb_one_way : workbook := workbook_of (one_driver 2) (dist_AB (Some (5 # 1)) (Some (7 # 1))).

(** Neither location is in the distance sheet. *)
Definition wb_isolated : workbook := workbook_of (one_driver 2) dist_empty.

(** Two rows with one name and different capacities. *)
Definition wb_same_name : workbook :=
  workbook_of (two_drivers "ann" "ann" 1 3) (dist_AB (Some (10 # 1)) (Some (10 # 1))).

(** The students sheet has no [student_name] column. *)
Definition wb_no_student_name : workbook :=
  {| sheet_names := all_sheets;
     students_df := {| students_columns := ["location"];
                       students_location := [Some "A"; Some "B"] |};
     drivers_df := one_driver 2;
     dist_df := dist_AB (Some (10 # 1)) (Some (10 # 1)) |}.

(** The inputs the normaliser hands on, for a workbook that passes it
    (the empty inputs otherwise). *)
Definition inputs_of (wb : workbook) : inputs :=
  match result_of (normalize wb) with
  | Ok inp => inp
  | Raise _ => {| demand := []; locations := []; travel := []; drivers := [];
                  cap_series := []; driver_caps := [] |}
  end.

(** Driver [d1] stops at A and B and takes both students. *)
Definition sol_d1_takes_both : solution := fun v =>
  match v with
  | X j _ | Y j _ | U j | W j _ => if String.eqb j "d1" then 1 else 0
  | Uber _ => 0
  end.

(** Driver [d1] takes the student at A; the student at B rides with the
    service. *)
Definition sol_d1_takes_A : solution := fun v =>
  match v with
  | X j i | Y j i => if String.eqb j "d1" && String.eqb i "A" then 1 else 0
  | U j => if String.eqb j "d1" then 1 else 0
  | W _ _ => 0
  | Uber i => if String.eqb i "B" then 1 else 0
  end.

(** Driver [d1] takes A and driver [d2] takes B. *)
Definition sol_one_each : solution := fun v =>
  match v with
  | X j i | Y j i =>
      if (String.eqb j "d1" && String.eqb i "A") || (String.eqb j "d2" && String.eqb i "B")
      then 1 else 0
  | U _ => 1
  | W _ _ => 0
  | Uber _ => 0
  end.

(** CBC reports an infeasible problem and assigns no value. *)
Definition cbc_no_values : model -> status * valuation :=
  fun _ => (Infeasible, fun _ => None).

(** CBC returns the given point as its values, with status optimal. *)
Definition cbc_returns (sol : solution) : model -> status * valuation :=
  fun _ => (Optimal, fun v => Some (inject_Z (sol v))).

End Scenario.

(** ** Report emitter, the console part (lines 256-271) *)

Module Report.
Import Extract.

(** The lines of the three console blocks.  How a number is rendered in
    a line is left to Python; a line is known by the values it shows. *)
Inductive line : Type :=
| SummaryHeader
| SummaryLine (row : summary_row)
| DetailHeader
| DetailLine (driver location : string) (picked : Z)
| UberHeader
| UberLine (location : string) (n : Z)
| NoUberNeeded.

(** Lines 257-271. *)
Definition console (r : report) : list line :=
  (SummaryHeader :: map SummaryLine (driver_summary r)
   ++ DetailHeader
      :: flat_map (fun row =>
                     if 0 <? a_students_picked row
                     then [DetailLine (a_driver row) (a_location row) (a_students_picked row)]
                     else [])
                  (driver_assignments r)
   ++ UberHeader
      :: match uber r with
         | [] => [NoUberNeeded]
         | _ :: _ => map (fun e => UberLine (fst e) (snd e)) (uber r)
         end)%list.

End Report.

(** ** Points and values used in the statements below *)

Module Points.
Import Normalizer Model Solver.

(** Nobody is driven: every student rides with the service. *)
Definition all_ride_service (inp : inputs) : solution := fun v =>
  match v with
  | Uber i => demand_of inp i
  | _ => 0
  end.

(** The solver hands back the point [sol] itself, every value a float
    that is an integer. *)
Definition values_of (sol : solution) : valuation := fun v => Some (inject_Z (sol v)).

(** The number of locations driver [j] visits in [sol]. *)
Definition stops (inp : inputs) (sol : solution) (j : string) : nat :=
  List.length (filter (fun i => sol (X j i) =? 1) (locations inp)).

(** A location on neither axis of the distance sheet. *)
Definition off_sheet (dist : distance_sheet) (i : string) : Prop :=
  ~ In i (dist_index dist) /\ ~ In i (dist_columns dist).

(** The sheet never holds two different numbers for the two directions
    of a pair. *)
Definition consistent (dist : distance_sheet) : Prop :=
  forall i j a b,
    Spec.has_entry dist i j = true -> Spec.has_entry dist j i = true ->
    dist_loc dist i j = Some a -> dist_loc dist j i = Some b -> a = b.

End Points.

(** ** The sheets as pandas reads them, before any typing *)

Module Raw.

(** A cell of a sheet: blank (NaN), a number, or text. *)
Inductive cell : Type :=
| Blank
| Num (q : Q)
| Text (s : string).

(** The students sheet: its column names and the cells of the
    [location] column. *)
Record students : Type := {
  s_columns : list string;
  s_location : list cell
}.

(** A row of the drivers sheet: the first cell rendered by
    [astype(str)] and the cell under each column name. *)
Record driver_row : Type := {
  first_str : string;
  cell_of : string -> cell
}.

Record drivers : Type := {
  d_columns : list string;
  d_rows : list driver_row
}.

(** The distance sheet read with [index_col=0]: the row labels and the
    column labels, with their repetitions, and the cell at a row and a
    column whose labels are not repeated. *)
Record distance : Type := {
  t_index : list string;
  t_columns : list string;
  t_cell : string -> string -> cell
}.

Record workbook : Type := {
  sheets : list string;
  students_of : students;
  drivers_of : drivers;
  distance_of : distance
}.

End Raw.

(** ** The script with the calls that can raise (lines 41-253)

    The normaliser and the run of the sections above take sheets whose
    cells are already numbers and whose model PuLP accepts.  Here the
    same lines are followed on the sheets as read, with the places where
    pandas, Python or PuLP raise: a label that is repeated on an axis of
    the distance sheet (lines 84-85, 90-91), a text cell that is no
    number (lines 86, 92), a capacity that is blank or no integer
    (line 100), and two constraints with one name (lines 137-167).

    A location cell that holds a number gives a label that is not a
    [str]; such a workbook is outside the embedding, whose labels are
    text, and the functions below answer [None] for it. *)

Module Script.
Import Config Normalizer Model Solver Extract.

Definition lift {A} (r : result A) : M A := ([], r).

Definition rbind {A B} (r : result A) (f : A -> result B) : result B :=
  match r with
  | Ok a => f a
  | Raise e => Raise e
  end.

(** A loop that collects one result per element and stops at the first
    raise. *)
Fixpoint rmap {A B} (f : A -> result B) (l : list A) : result (list B) :=
  match l with
  | [] => Ok []
  | a :: rest => rbind (f a) (fun b => rbind (rmap f rest) (fun bs => Ok (b :: bs)))
  end.

(** The texts of the three [ValueError]s the script raises itself
    (lines 44, 52, 54). *)
Definition schema_messages : list string :=
  [ "Excel must contain sheets named: students, drivers and campus_distance";
    "students sheet must have a 'location' column";
    "drivers sheet must have 'capacity' (or 'num_students') column" ].

(** A run that ended in one of them. *)
Definition schema_error {A} (m : M A) : bool :=
  match result_of m with
  | Raise (ValueError msg) => mem msg schema_messages
  | _ => false
  end.

(** The texts of the library's errors are the library's own; they are
    named here by what raised them. *)
Definition ambiguous_truth_value : string := "The truth value of a Series is ambiguous".
Definition not_a_float : string := "could not convert string to float".
Definition not_an_int : string := "cannot convert to integer".
Definition overlapping_names : string := "overlapping constraint names: ".

(** The location cells of a workbook whose locations are blank or text. *)
Fixpoint text_cells (cells : list Raw.cell) : option (list (option string)) :=
  match cells with
  | [] => Some []
  | Raw.Blank :: rest => option_map (cons None) (text_cells rest)
  | Raw.Text s :: rest => option_map (cons (Some s)) (text_cells rest)
  | Raw.Num _ :: _ => None
  end.

(** A required sheet is absent. *)
Definition sheet_absent (raw : Raw.workbook) : Prop :=
  ~ In SHEET_STUDENT (Raw.sheets raw)
  \/ ~ In SHEET_DRIVER (Raw.sheets raw)
  \/ ~ In SHEET_DISTANCE (Raw.sheets raw).

(** A column the script tests for is missing. *)
Definition checked_column_missing (raw : Raw.workbook) : Prop :=
  ~ In LOCATION_COL (Raw.s_columns (Raw.students_of raw))
  \/ (~ In CAPACITY_COL (Raw.d_columns (Raw.drivers_of raw))
      /\ ~ In "num_students" (Raw.d_columns (Raw.drivers_of raw))).

(** A column the interface section lists for the two tables is missing:
    [student_name], [location], [driver_name], and one of [capacity],
    [num_students]. *)
Definition required_column_missing (raw : Raw.workbook) : Prop :=
  ~ In "student_name" (Raw.s_columns (Raw.students_of raw))
  \/ ~ In LOCATION_COL (Raw.s_columns (Raw.students_of raw))
  \/ ~ In "driver_name" (Raw.d_columns (Raw.drivers_of raw))
  \/ (~ In CAPACITY_COL (Raw.d_columns (Raw.drivers_of raw))
      /\ ~ In "num_students" (Raw.d_columns (Raw.drivers_of raw))).


Section Library.

(** Python's [float] and [int] applied to a [str]: the number, or [None]
    where they raise [ValueError].  PuLP's rewriting of a constraint
    name. *)
Variable py_float : string -> option Q.
Variable py_int : string -> option Z.
Variable pulp_name : string -> string.

(** Lines 84-86 and 90-92: [raw = dist_df.loc[i, j]], then
    [if not pd.isna(raw): val = float(raw)].  With a repeated label
    [.loc] gives a Series and [not pd.isna(raw)] raises. *)
Definition read (dist : Raw.distance) (i j : string) (val : Py.pyval) : result Py.pyval :=
  if ((1 <? count_occ string_dec (Raw.t_index dist) i)%nat
      || (1 <? count_occ string_dec (Raw.t_columns dist) j)%nat)%bool
  then Raise (ValueError ambiguous_truth_value)
  else match Raw.t_cell dist i j with
       | Raw.Blank => Ok val
       | Raw.Num q => Ok (Py.PyFloat q)
       | Raw.Text s =>
           match py_float s with
           | Some q => Ok (Py.PyFloat q)
           | None => Raise (ValueError not_a_float)
           end
       end.

(** Lines 82-95. *)
Definition travel_entry (dist : Raw.distance) (i j : string) : result Py.pyval :=
  let val := Py.PyInt BIG_DISTANCE in
  rbind (if mem i (Raw.t_index dist) && mem j (Raw.t_columns dist)
         then read dist i j val else Ok val)
        (fun val =>
           if Py.is_BIG_DISTANCE val && mem j (Raw.t_index dist) && mem i (Raw.t_columns dist)
           then read dist j i val else Ok val).

(** Lines 78-95. *)
Definition build_travel (dist : Raw.distance) (locations : list string)
  : result (list (string * list (string * Py.pyval))) :=
  rmap (fun i =>
          rbind (rmap (fun j => rbind (travel_entry dist i j) (fun v => Ok (j, v))) locations)
                (fun row => Ok (i, row)))
       locations.

(** Line 100, one element of [astype(int)]. *)
Definition cell_int (c : Raw.cell) : result Z :=
  match c with
  | Raw.Blank => Raise (ValueError not_an_int)
  | Raw.Num q => Ok (Py.int_of_float q)
  | Raw.Text s =>
      match py_int s with
      | Some z => Ok z
      | None => Raise (ValueError not_an_int)
      end
  end.

(** The sheets as the sections above take them: every number a cell
    denotes, and nothing where a cell denotes none. *)
Definition view (raw : Raw.workbook) (cells : list (option string)) : workbook :=
  {| sheet_names := Raw.sheets raw;
     students_df :=
       {| students_columns := Raw.s_columns (Raw.students_of raw);
          students_location := cells |};
     drivers_df :=
       {| drivers_columns := Raw.d_columns (Raw.drivers_of raw);
          drivers_first := map Raw.first_str (Raw.d_rows (Raw.drivers_of raw));
          drivers_int := fun c =>
            map (fun r => match cell_int (Raw.cell_of r c) with Ok z => z | Raise _ => 0 end)
                (Raw.d_rows (Raw.drivers_of raw)) |};
     dist_df :=
       {| dist_index := Raw.t_index (Raw.distance_of raw);
          dist_columns := Raw.t_columns (Raw.distance_of raw);
          dist_loc := fun i j =>
            match Raw.t_cell (Raw.distance_of raw) i j with
            | Raw.Blank => None
            | Raw.Num q => Some q
            | Raw.Text s => py_float s
            end |} |}.

(** Lines 41-101 on text locations. *)
Definition normalize_cells (raw : Raw.workbook) (cells : list (option string)) : M inputs :=
  (print PrintBanner ;;;
   check_schema (view raw cells) ;;;
   let demand := groupby_size cells in
   let locations := map fst demand in
   let isolated := isolated_locations (dist_df (view raw cells)) locations in
   when (match isolated with [] => false | _ => true end)
        (print (PrintIsolatedWarning isolated)) ;;;
   travel <- lift (build_travel (Raw.distance_of raw) locations) ;;
   let drivers := map Raw.first_str (Raw.d_rows (Raw.drivers_of raw)) in
   cap_series <- lift (rmap (fun r => cell_int (Raw.cell_of r (capacity_source (drivers_df (view raw cells)))))
                            (Raw.d_rows (Raw.drivers_of raw))) ;;
   ret {| demand := demand; locations := locations; travel := travel;
          drivers := drivers; cap_series := cap_series;
          driver_caps := build_driver_caps drivers cap_series |})%run.

Definition normalize (raw : Raw.workbook) : option (M inputs) :=
  option_map (normalize_cells raw) (text_cells (Raw.s_location (Raw.students_of raw))).

(** [model += constraint, name]: PuLP rewrites the name and refuses one
    the model already has. *)
Fixpoint add_constraints (cs : list constraint) (names : list string) : result unit :=
  match cs with
  | [] => Ok tt
  | c :: rest =>
      if mem (pulp_name (c_name c)) names
      then Raise (PulpError (overlapping_names ++ pulp_name (c_name c)))
      else add_constraints rest (pulp_name (c_name c) :: names)
  end.

(** Lines 104-187. *)
Definition build_model (inp : inputs) : M model :=
  (lift (add_constraints (constraints (build inp)) []) ;;;
   print PrintAdjusted ;;;
   ret (build inp))%run.

(** Lines 41-253 on text locations. *)
Definition run_cells (cbc : model -> status * valuation)
           (raw : Raw.workbook) (cells : list (option string)) : M report :=
  (inp <- normalize_cells raw cells ;;
   m <- build_model inp ;;
   let outcome := cbc m in
   report_status (fst outcome) ;;;
   extract inp (snd outcome))%run.

Definition run (cbc : model -> status * valuation) (raw : Raw.workbook) : option (M report) :=
  option_map (run_cells cbc raw) (text_cells (Raw.s_location (Raw.students_of raw))).

End Library.
End Script.

(** ** Concrete sheets as read *)

Module RawScenario.

(** No text of these sheets is read as a number. *)
Definition no_number {A} : string -> option A := fun _ => None.

(** PuLP leaves these names as they are. *)
Definition same_name : string -> string := fun s => s.

Definition number_row (name : string) (cap : Z) : Raw.driver_row :=
  {| Raw.first_str := name;
     Raw.cell_of := fun c => if String.eqb c "driver_name" then Raw.Text name
                             else if String.eqb c "capacity" then Raw.Num (inject_Z cap)
                             else Raw.Blank |}.

Definition drivers_of_rows (rows : list Raw.driver_row) : Raw.drivers :=
  {| Raw.d_columns := ["driver_name"; "capacity"]; Raw.d_rows := rows |}.

Definition students_AB (cols : list string) : Raw.students :=
  {| Raw.s_columns := cols; Raw.s_location := [Raw.Text "A"; Raw.Text "B"] |}.

(** Rows and columns A, B; 10 in both directions. *)
Definition dist_ten : Raw.distance :=
  {| Raw.t_index := ["A"; "B"];
     Raw.t_columns := ["A"; "B"];
     Raw.t_cell := fun i j => if String.eqb i j then Raw.Num 0 else Raw.Num (10 # 1) |}.

(** The row label A is repeated. *)
Definition dist_repeated : Raw.distance :=
  {| Raw.t_index := ["A"; "A"; "B"];
     Raw.t_columns := ["A"; "B"];
     Raw.t_cell := fun i j => if String.eqb i j then Raw.Num 0 else Raw.Num (10 # 1) |}.

Definition workbook_of (s : Raw.students) (d : Raw.drivers) (t : Raw.distance) : Raw.workbook :=
  {| Raw.sheets := Scenario.all_sheets; Raw.students_of := s;
     Raw.drivers_of := d; Raw.distance_of := t |}.

(** One driver with two seats, A and B 10 apart. *)
Definition raw_ten : Raw.workbook :=
  workbook_of (students_AB ["student_name"; "location"])
              (drivers_of_rows [number_row "d1" 2]) dist_ten.

(** The same without a [student_name] column. *)
Definition raw_no_student_name : Raw.workbook :=
  workbook_of (students_AB ["location"]) (drivers_of_rows [number_row "d1" 2]) dist_ten.

(** The same with no sheet at all. *)
Definition raw_no_sheet : Raw.workbook :=
  {| Raw.sheets := []; Raw.students_of := students_AB ["student_name"; "location"];
     Raw.drivers_of := drivers_of_rows [number_row "d1" 2]; Raw.distance_of := dist_ten |}.

(** Every sheet and column is there; a row label of the distance sheet
    is repeated. *)
Definition raw_repeated_label : Raw.workbook :=
  workbook_of (students_AB ["student_name"; "location"])
              (drivers_of_rows [number_row "d1" 2]) dist_repeated.

(** Two rows named [ann], with capacities 1 and 3. *)
Definition raw_same_name : Raw.workbook :=
  workbook_of (students_AB ["student_name"; "location"])
              (drivers_of_rows [number_row "ann" 1; number_row "ann" 3]) dist_ten.



End RawScenario.

(** * Properties *)

Import Config Normalizer Model Solver Extract.

(** ** Runs *)

Lemma mem_In (s : string) (l : list string) : mem s l = true <-> In s l.
Proof.
  unfold mem. rewrite existsb_exists. split.
  - intros [x [Hin Heq]]. apply String.eqb_eq in Heq. now subst.
  - intros Hin. exists s. split; [assumption | apply String.eqb_refl].
Qed.

Lemma mem_not_In (s : string) (l : list string) : mem s l = false <-> ~ In s l.
Proof.
  rewrite <- mem_In. destruct (mem s l); split; intros H; try reflexivity;
    try discriminate; try (intros H'; discriminate). now elim H.
Qed.

(** The schema check either passes silently or raises a [ValueError]
    without printing. *)
Lemma check_schema_cases (wb : workbook) :
  (check_schema wb = ([], Ok tt)
   /\ In SHEET_STUDENT (sheet_names wb) /\ In SHEET_DRIVER (sheet_names wb)
   /\ In SHEET_DISTANCE (sheet_names wb)
   /\ In LOCATION_COL (students_columns (students_df wb))
   /\ (In CAPACITY_COL (drivers_columns (drivers_df wb))
       \/ In "num_students" (drivers_columns (drivers_df wb))))
  \/ ((exists msg, check_schema wb = ([], Raise (ValueError msg)))
      /\ (Spec.sheet_absent wb \/ Spec.checked_column_missing wb)).
Proof.
  unfold check_schema, Spec.sheet_absent, Spec.checked_column_missing.
  destruct (mem SHEET_STUDENT (sheet_names wb)) eqn:E1;
    destruct (mem SHEET_DRIVER (sheet_names wb)) eqn:E2;
    destruct (mem SHEET_DISTANCE (sheet_names wb)) eqn:E3;
    destruct (mem LOCATION_COL (students_columns (students_df wb))) eqn:E4;
    destruct (mem CAPACITY_COL (drivers_columns (drivers_df wb))) eqn:E5;
    destruct (mem "num_students" (drivers_columns (drivers_df wb))) eqn:E6;
    simpl;
    repeat match goal with
           | H : mem _ _ = true |- _ => apply mem_In in H
           | H : mem _ _ = false |- _ => apply mem_not_In in H
           end;
    first [ left; now auto 10 | right; split; [eexists; reflexivity | now auto 10] ].
Qed.

(** After a passing check the normaliser only prints and returns. *)
Lemma normalize_cases (wb : workbook) :
  (exists inp, result_of (normalize wb) = Ok inp
               /\ ~ (Spec.sheet_absent wb \/ Spec.checked_column_missing wb))
  \/ ((exists msg, normalize wb = ([PrintBanner], Raise (ValueError msg)))
      /\ (Spec.sheet_absent wb \/ Spec.checked_column_missing wb)).
Proof.
  unfold normalize.
  destruct (check_schema_cases wb) as [[Hc H] | [[msg Hc] H]]; rewrite Hc.
  - left. eexists. split.
    + simpl. destruct (isolated_locations _ _); reflexivity.
    + unfold Spec.sheet_absent, Spec.checked_column_missing. tauto.
  - right. split; [exists msg; reflexivity | assumption].
Qed.

(** Nothing after the normaliser raises a [ValueError]. *)
Lemma collect_result (inp : inputs) (value : valuation) (ds : list string) :
  forall acc,
    (exists rows, collect inp value ds acc = ([], Ok rows))
    \/ (exists msg, collect inp value ds acc = ([], Raise (TypeError msg))).
Proof.
  induction ds as [| j rest IH]; intros acc; simpl.
  - left. now eexists.
  - unfold used_unguarded. destruct (value (U j)).
    + simpl. destruct (IH (acc ++ rows_of inp value j)%list) as [[rows H] | [msg H]];
        rewrite H; [left | right]; now eexists.
    + right. now eexists.
Qed.

Lemma extract_result (inp : inputs) (value : valuation) :
  (exists r, extract inp value = ([], Ok r))
  \/ (exists msg, extract inp value = ([], Raise (TypeError msg))).
Proof.
  unfold extract.
  destruct (collect_result inp value (drivers inp) []) as [[rows H] | [msg H]];
    rewrite H; [left | right]; now eexists.
Qed.

(** The trace and the end of a run whose workbook passes the normaliser. *)
Lemma main_after_normalize (cbc : model -> status * valuation) (wb : workbook) (inp : inputs) :
  result_of (normalize wb) = Ok inp ->
  printed (main cbc wb)
  = (printed (normalize wb) ++ PrintAdjusted :: printed (report_status (fst (cbc (build inp)))))%list
  /\ result_of (main cbc wb) = result_of (extract inp (snd (cbc (build inp)))).
Proof.
  intros Hn. unfold main.
  destruct (normalize wb) as [out r]. simpl in Hn. subst r. simpl.
  destruct (report_status (fst (cbc (build inp)))) as [o1 r1] eqn:Hr.
  assert (r1 = Ok tt) as ->.
  { unfold report_status in Hr. destruct (negb _); inversion Hr; reflexivity. }
  simpl.
  destruct (extract_result inp (snd (cbc (build inp)))) as [[r H] | [msg H]];
    rewrite H; simpl; rewrite app_nil_r; split; reflexivity.
Qed.

(** ** Solver status *)

Lemma report_status_trace (s : status) :
  printed (report_status s)
  = match s with
    | Optimal | NotSolved => []
    | _ => [PrintSolverStatus (LpStatus s)]
    end.
Proof. destruct s; reflexivity. Qed.

Lemma normalize_trace_no_status (wb : workbook) (txt : string) :
  ~ In (PrintSolverStatus txt) (printed (normalize wb)).
Proof.
  unfold normalize.
  destruct (check_schema_cases wb) as [[Hc _] | [[msg Hc] _]]; rewrite Hc; simpl.
  - destruct (isolated_locations _ _); simpl; intros H;
      repeat (destruct H as [H | H]; try discriminate H); assumption.
  - intros [H | []]. discriminate H.
Qed.

(** C9, as stated, fails for the status not-solved: it is not optimal and
    nothing is printed for it. *)
Lemma not_solved_is_silent :
  ~ (forall s, s <> Optimal ->
               In (PrintSolverStatus (LpStatus s)) (printed (report_status s))).
Proof.
  intros H. specialize (H NotSolved). simpl in H. apply H. discriminate.
Qed.

(** C9, amended: a run past the normaliser prints the status string
    exactly when the status is neither optimal nor not-solved, that is
    for infeasible, unbounded and undefined. *)
Theorem status_logged_unless_quiet (cbc : model -> status * valuation)
        (wb : workbook) (inp : inputs) :
  result_of (normalize wb) = Ok inp ->
  (In (PrintSolverStatus (LpStatus (fst (cbc (build inp))))) (printed (main cbc wb))
   <-> fst (cbc (build inp)) <> Optimal /\ fst (cbc (build inp)) <> NotSolved).
Proof.
  intros Hn. destruct (main_after_normalize cbc wb inp Hn) as [Hp _].
  rewrite Hp, in_app_iff. cbn [In].
  pose proof (normalize_trace_no_status wb (LpStatus (fst (cbc (build inp))))) as Hno.
  set (s := fst (cbc (build inp))) in *. clearbody s.
  rewrite report_status_trace. split.
  - intros [H | [H | H]]; [now elim Hno | discriminate H |].
    destruct s; try (split; discriminate); destruct H.
  - intros [H1 H2]. right. right.
    destruct s; try congruence; left; reflexivity.
Qed.

Lemma status_logged_unless_quiet_witness :
  In (PrintSolverStatus "Infeasible") (printed (main Scenario.cbc_no_values Scenario.wb_ten)).
Proof.
  apply (status_logged_unless_quiet Scenario.cbc_no_values Scenario.wb_ten
                                    (Scenario.inputs_of Scenario.wb_ten)).
  - reflexivity.
  - split; discriminate.
Defined.

(** ** Dicts *)

Lemma dict_get_map_In {V} (f : string -> V) (l : list string) (k : string) :
  In k l -> dict_get (map (fun j => (j, f j)) l) k = Some (f k).
Proof.
  induction l as [| a l IH]; intros Hin; simpl.
  - destruct Hin.
  - destruct (String.eqb k a) eqn:E.
    + apply String.eqb_eq in E. now subst.
    + destruct Hin as [-> | Hin]; [now rewrite String.eqb_refl in E | now apply IH].
Qed.

Lemma dict_get_set {V} (d : list (string * V)) (k k' : string) (v : V) :
  dict_get (dict_set d k v) k' = if String.eqb k' k then Some v else dict_get d k'.
Proof.
  induction d as [| [a w] d IH]; simpl.
  - reflexivity.
  - destruct (String.eqb k a) eqn:Eka; simpl.
    + apply String.eqb_eq in Eka. subst a.
      destruct (String.eqb k' k); reflexivity.
    + rewrite IH. destruct (String.eqb k' a) eqn:Ek'a; [| reflexivity].
      apply String.eqb_eq in Ek'a. subst a.
      destruct (String.eqb k' k) eqn:E; [| reflexivity].
      apply String.eqb_eq in E. subst. now rewrite String.eqb_refl in Eka.
Qed.

Lemma dict_get_fold_set (rows : list (string * Z)) :
  forall (d : list (string * Z)) (j : string),
    dict_get (fold_left (fun d nc => dict_set d (fst nc) (snd nc)) rows d) j
    = match Spec.last_row_capacity rows j with
      | Some c => Some c
      | None => dict_get d j
      end.
Proof.
  induction rows as [| [n c] rows IH]; intros d j; simpl.
  - reflexivity.
  - rewrite IH. destruct (Spec.last_row_capacity rows j); [reflexivity |].
    rewrite dict_get_set. destruct (String.eqb j n); reflexivity.
Qed.

(** ** What the normaliser hands on *)

Lemma normalize_ok (wb : workbook) (inp : inputs) :
  result_of (normalize wb) = Ok inp ->
  demand inp = groupby_size (students_location (students_df wb))
  /\ locations inp = map fst (demand inp)
  /\ travel inp = build_travel (dist_df wb) (locations inp)
  /\ drivers inp = drivers_first (drivers_df wb)
  /\ cap_series inp = drivers_int (drivers_df wb) (capacity_source (drivers_df wb))
  /\ driver_caps inp = build_driver_caps (drivers inp) (cap_series inp).
Proof.
  unfold normalize.
  destruct (check_schema_cases wb) as [[Hc _] | [[msg Hc] _]]; rewrite Hc; simpl.
  - destruct (isolated_locations _ _); simpl; intros H; inversion H; subst; simpl; tauto.
  - discriminate.
Qed.

Lemma locations_sorted_distinct (wb : workbook) (inp : inputs) :
  result_of (normalize wb) = Ok inp ->
  Permutation (nodup string_dec (present (students_location (students_df wb)))) (locations inp).
Proof.
  intros H. destruct (normalize_ok wb inp H) as [Hd [Hl _]].
  rewrite Hl, Hd. unfold groupby_size. rewrite map_map. simpl. rewrite map_id.
  apply StringSort.Permuted_sort.
Qed.

Lemma locations_NoDup (wb : workbook) (inp : inputs) :
  result_of (normalize wb) = Ok inp -> NoDup (locations inp).
Proof.
  intros H. eapply Permutation_NoDup; [apply (locations_sorted_distinct wb inp H) |].
  apply NoDup_nodup.
Qed.

(** [demand[i]] is the number of student rows at [i]. *)
Lemma demand_counts_students (wb : workbook) (inp : inputs) (i : string) :
  result_of (normalize wb) = Ok inp ->
  In i (locations inp) ->
  demand_of inp i = Spec.students_at wb i.
Proof.
  intros H Hin. destruct (normalize_ok wb inp H) as [Hd [Hl _]].
  unfold demand_of, Spec.students_at. rewrite Hl, Hd in Hin. rewrite Hd.
  unfold groupby_size in *. rewrite map_map in Hin. simpl in Hin. rewrite map_id in Hin.
  now rewrite (dict_get_map_In
                 (fun l => Z.of_nat (count_occ string_dec
                                       (present (students_location (students_df wb))) l))
                 _ i Hin).
Qed.

(** ** The travel table *)

Lemma travel_get_build (dist : distance_sheet) (ls : list string) (i k : string) :
  In i ls -> In k ls ->
  travel_get (build_travel dist ls) i k = travel_entry dist i k.
Proof.
  intros Hi Hk. unfold travel_get, build_travel.
  rewrite (dict_get_map_In (fun i => map (fun j => (j, travel_entry dist i j)) ls) ls i Hi).
  now rewrite (dict_get_map_In (fun j => travel_entry dist i j) ls k Hk).
Qed.

(** The stored value: the forward cell when the sheet has a number there,
    else the reverse cell when it has one, else the sentinel. *)
Lemma travel_entry_fallback (dist : distance_sheet) (i j : string) :
  travel_entry dist i j
  = match (if Spec.has_entry dist i j then dist_loc dist i j else None) with
    | Some q => Py.PyFloat q
    | None =>
        match (if Spec.has_entry dist j i then dist_loc dist j i else None) with
        | Some q => Py.PyFloat q
        | None => Py.PyInt BIG_DISTANCE
        end
    end.
Proof.
  unfold travel_entry, Spec.has_entry.
  destruct (mem i (dist_index dist)), (mem j (dist_columns dist)),
           (mem j (dist_index dist)), (mem i (dist_columns dist));
    simpl; destruct (dist_loc dist i j); simpl; try reflexivity;
    destruct (dist_loc dist j i); reflexivity.
Qed.

(** The sentinel is stored exactly for the pairs no direction resolves. *)
Lemma travel_entry_sentinel (dist : distance_sheet) (i j : string) :
  Spec.resolvable dist i j = false <-> travel_entry dist i j = Py.PyInt BIG_DISTANCE.
Proof.
  rewrite travel_entry_fallback. unfold Spec.resolvable, Spec.has_entry.
  destruct (mem i (dist_index dist)), (mem j (dist_columns dist)),
           (mem j (dist_index dist)), (mem i (dist_columns dist));
    simpl; destruct (dist_loc dist i j); simpl;
    try destruct (dist_loc dist j i); simpl; split; intros H;
    first [reflexivity | discriminate H].
Qed.

(** No stored value is [None]. *)
Lemma travel_entry_not_None (dist : distance_sheet) (i j : string) :
  Py.is_not_None (travel_entry dist i j) = true.
Proof.
  rewrite travel_entry_fallback.
  destruct (if Spec.has_entry dist i j then _ else _); [reflexivity |].
  destruct (if Spec.has_entry dist j i then _ else _); reflexivity.
Qed.

(** When the sheet never holds two different numbers for the two
    directions of a pair, the table is symmetric. *)
Lemma travel_entry_symmetric (dist : distance_sheet) (i j : string) :
  (forall a b, Spec.has_entry dist i j = true -> Spec.has_entry dist j i = true ->
               dist_loc dist i j = Some a -> dist_loc dist j i = Some b -> a = b) ->
  travel_entry dist i j = travel_entry dist j i.
Proof.
  intros Hsym. rewrite !travel_entry_fallback.
  destruct (Spec.has_entry dist i j) eqn:Eij, (Spec.has_entry dist j i) eqn:Eji;
    try reflexivity.
  destruct (dist_loc dist i j) as [a |] eqn:Ea, (dist_loc dist j i) as [b |] eqn:Eb;
    try reflexivity.
    now rewrite (Hsym a b eq_refl eq_refl eq_refl eq_refl).
Qed.

(** ** The pair list *)

Lemma filter_all {A} (f : A -> bool) (l : list A) :
  (forall x, In x l -> f x = true) -> filter f l = l.
Proof.
  induction l as [| a l IH]; intros H; simpl; [reflexivity |].
  rewrite (H a (or_introl eq_refl)). f_equal. apply IH. intros x Hx. apply H. now right.
Qed.

Lemma build_pairs_unfiltered (dist : distance_sheet) (all : list string) :
  forall ls, incl ls all -> build_pairs (build_travel dist all) ls = Spec.later_pairs ls.
Proof.
  induction ls as [| i later IH]; intros Hincl; simpl; [reflexivity |].
  rewrite IH by (intros x Hx; apply Hincl; now right).
  rewrite filter_all; [reflexivity |].
  intros k Hk. rewrite travel_get_build.
  - apply travel_entry_not_None.
  - apply Hincl. now left.
  - apply Hincl. now right.
Qed.

(** The filter of line 123 removes nothing. *)
Lemma pairs_unfiltered (wb : workbook) (inp : inputs) :
  result_of (normalize wb) = Ok inp -> pairs inp = Spec.later_pairs (locations inp).
Proof.
  intros H. destruct (normalize_ok wb inp H) as [_ [_ [Ht _]]].
  unfold pairs. rewrite Ht. apply build_pairs_unfiltered. apply incl_refl.
Qed.

Lemma build_pairs_In (t : list (string * list (string * Py.pyval))) (ls : list string)
      (i k : string) :
  In (i, k) (build_pairs t ls) -> In i ls /\ In k ls.
Proof.
  induction ls as [| a later IH]; simpl; [intros [] |].
  rewrite in_app_iff, in_map_iff. intros [[x [Heq Hx]] | H].
  - inversion Heq; subst. apply filter_In in Hx. tauto.
  - destruct (IH H). tauto.
Qed.

(** C1, on a workbook whose distance sheet knows neither A nor B: no
    direction of the pair resolves, and the pair is in the pair list all
    the same, with a declared variable for driver [d1] that the objective
    charges at the sentinel distance. *)
Theorem unresolved_pair_gets_variable :
  result_of (normalize Scenario.wb_isolated) = Ok (Scenario.inputs_of Scenario.wb_isolated)
  /\ In "A" (locations (Scenario.inputs_of Scenario.wb_isolated))
  /\ In "B" (locations (Scenario.inputs_of Scenario.wb_isolated))
  /\ Spec.resolvable (dist_df Scenario.wb_isolated) "A" "B" = false
  /\ Spec.resolvable (dist_df Scenario.wb_isolated) "B" "A" = false
  /\ pairs (Scenario.inputs_of Scenario.wb_isolated) = [("A", "B")]
  /\ In (binary (W "d1" 0)) (variables (build (Scenario.inputs_of Scenario.wb_isolated)))
  /\ In ((inject_Z SMALL_TRIP * inject_Z BIG_DISTANCE)%Q, W "d1" 0%nat)
        (terms (objective (build (Scenario.inputs_of Scenario.wb_isolated)))).
Proof.
  repeat split; try reflexivity.
  - left. reflexivity.
  - right. left. reflexivity.
  - vm_compute. repeat (first [left; reflexivity | right]).
  - vm_compute. repeat (first [left; reflexivity | right]).
Qed.

(** C8, on a sheet whose cell (A, B) is 5 and whose cell (B, A) is 7:
    each lookup returns its own forward cell and the table is not
    symmetric. *)
Theorem one_way_sheet_is_not_symmetrised :
  In "A" (locations (Scenario.inputs_of Scenario.wb_one_way))
  /\ In "B" (locations (Scenario.inputs_of Scenario.wb_one_way))
  /\ travel_get (travel (Scenario.inputs_of Scenario.wb_one_way)) "A" "B" = Py.PyFloat (5 # 1)
  /\ travel_get (travel (Scenario.inputs_of Scenario.wb_one_way)) "B" "A" = Py.PyFloat (7 # 1)
  /\ travel_get (travel (Scenario.inputs_of Scenario.wb_one_way)) "A" "B"
     <> travel_get (travel (Scenario.inputs_of Scenario.wb_one_way)) "B" "A".
Proof.
  repeat split; try reflexivity.
  - left. reflexivity.
  - right. left. reflexivity.
  - vm_compute. discriminate.
Qed.

(** ** Extraction *)

Lemma collect_raises (inp : inputs) (value : valuation) (j : string) (ds : list string) :
  forall acc,
    In j ds -> value (U j) = None ->
    exists msg, collect inp value ds acc = ([], Raise (TypeError msg)).
Proof.
  induction ds as [| d rest IH]; intros acc Hin Hnone; [destruct Hin |].
  simpl. unfold used_unguarded. destruct (value (U d)) eqn:Ed.
  - destruct Hin as [-> | Hin]; [congruence |].
    destruct (IH (acc ++ rows_of inp value d)%list Hin Hnone) as [msg H].
    simpl. rewrite H. now exists msg.
  - now eexists.
Qed.

(** A driver whose [used] flag has no value makes the extractor raise. *)
Lemma extract_raises_on_undefined_used (inp : inputs) (value : valuation) (j : string) :
  In j (drivers inp) -> value (U j) = None ->
  exists msg, result_of (extract inp value) = Raise (TypeError msg).
Proof.
  intros Hin Hnone. unfold extract.
  destruct (collect_raises inp value j (drivers inp) [] Hin Hnone) as [msg H].
  rewrite H. now exists msg.
Qed.

Lemma collect_completes (inp : inputs) (value : valuation) (ds : list string) :
  forall acc,
    (forall j, In j ds -> value (U j) <> None) ->
    collect inp value ds acc = ([], Ok (acc ++ flat_map (rows_of inp value) ds)%list).
Proof.
  induction ds as [| d rest IH]; intros acc Hdef; simpl.
  - now rewrite app_nil_r.
  - unfold used_unguarded. destruct (value (U d)) eqn:Ed.
    + simpl. rewrite IH by (intros j Hj; apply Hdef; now right).
      now rewrite <- app_assoc.
    + elim (Hdef d (or_introl eq_refl) Ed).
Qed.

(** When every [used] flag has a value the extractor completes, whatever
    the other values are. *)
Lemma extract_completes (inp : inputs) (value : valuation) :
  (forall j, In j (drivers inp) -> value (U j) <> None) ->
  extract inp value
  = ([], Ok {| driver_summary := map (summary_of inp value) (drivers inp);
               driver_assignments := flat_map (rows_of inp value) (drivers inp);
               uber := leftover inp value |}).
Proof.
  intros Hdef. unfold extract. now rewrite (collect_completes inp value _ [] Hdef).
Qed.

(** ** Evaluating the expressions of the model *)

Lemma eval_const_shift (sol : solution) (ts : list (Z * var)) (c : Z) :
  eval sol {| terms := ts; const := c |} = eval sol {| terms := ts; const := 0 |} + c.
Proof.
  unfold eval. simpl. induction ts as [| t ts IH]; simpl; lia.
Qed.

Lemma eval_plus (sol : solution) (a b : affine Z) :
  eval sol (plus a b) = eval sol a + eval sol b.
Proof.
  destruct a as [ta ca], b as [tb cb]. unfold plus. simpl.
  rewrite (eval_const_shift sol (ta ++ tb)), (eval_const_shift sol ta),
    (eval_const_shift sol tb).
  unfold eval. simpl. induction ta as [| t ta IH]; simpl; lia.
Qed.

Lemma eval_scale (sol : solution) (k : Z) (e : affine Z) :
  eval sol (scale k e) = k * eval sol e.
Proof.
  destruct e as [ts c]. unfold scale, eval. simpl.
  induction ts as [| t ts IH]; simpl; lia.
Qed.

Lemma eval_of_var (sol : solution) (v : var) : eval sol (of_var v) = sol v.
Proof. unfold eval, of_var. cbn [terms const fold_right fst snd]. lia. Qed.

Lemma eval_lit (sol : solution) (k : Z) : eval sol (lit k) = k.
Proof. reflexivity. Qed.

Lemma eval_minus (sol : solution) (a b : affine Z) :
  eval sol (minus a b) = eval sol a - eval sol b.
Proof. unfold minus. rewrite eval_plus, eval_scale. lia. Qed.

Lemma eval_lpSum_vars {A} (sol : solution) (f : A -> var) (l : list A) :
  eval sol (lpSum (map (fun a => of_var (f a)) l))
  = fold_right Z.add 0 (map (fun a => sol (f a)) l).
Proof.
  induction l as [| a l IH]; simpl; [reflexivity |].
  now rewrite eval_plus, eval_of_var, IH.
Qed.

Create Rewrite HintDb eval.
#[local] Hint Rewrite eval_plus eval_scale eval_of_var eval_lit eval_minus
  @eval_lpSum_vars : eval.

(** ** Reading the constraints off a feasible point *)

Section Feasible.
Variable inp : inputs.
Variable sol : solution.
Hypothesis Hfeas : feasible (build inp) sol.

Lemma feasible_holds (c : constraint) :
  In c (constraints (build inp)) -> holds sol c = true.
Proof.
  destruct Hfeas as [_ Hc]. rewrite forallb_forall in Hc. apply Hc.
Qed.

Lemma feasible_within (d : decl) :
  In d (variables (build inp)) -> within sol d = true.
Proof.
  destruct Hfeas as [Hv _]. rewrite forallb_forall in Hv. apply Hv.
Qed.

Lemma binary_bounds (v : var) :
  In (binary v) (variables (build inp)) -> 0 <= sol v <= 1.
Proof.
  intros H. apply feasible_within in H. unfold within in H. simpl in H.
  apply andb_prop in H. destruct H as [H1 H2]. lia.
Qed.

Lemma integer_bounds (v : var) :
  In (integer_from_0 v) (variables (build inp)) -> 0 <= sol v.
Proof.
  intros H. apply feasible_within in H. unfold within in H. simpl in H.
  apply andb_prop in H. destruct H as [H1 _]. lia.
Qed.

Lemma visit_binary (j i : string) :
  In j (drivers inp) -> In i (locations inp) -> 0 <= sol (X j i) <= 1.
Proof.
  intros Hj Hi. apply binary_bounds. simpl. unfold declared.
  apply in_or_app. left. apply in_flat_map. exists j. split; [assumption |].
  apply in_map_iff. now exists i.
Qed.

Lemma pickup_nonneg (j i : string) :
  In j (drivers inp) -> In i (locations inp) -> 0 <= sol (Y j i).
Proof.
  intros Hj Hi. apply integer_bounds. simpl. unfold declared.
  apply in_or_app. right. apply in_or_app. left.
  apply in_flat_map. exists j. split; [assumption |].
  apply in_map_iff. now exists i.
Qed.

Lemma used_binary (j : string) : In j (drivers inp) -> 0 <= sol (U j) <= 1.
Proof.
  intros Hj. apply binary_bounds. simpl. unfold declared.
  do 2 (apply in_or_app; right). apply in_or_app. left.
  apply in_map_iff. now exists j.
Qed.

Lemma pair_binary (j : string) (idx : nat) :
  In j (drivers inp) -> (idx < List.length (pairs inp))%nat -> 0 <= sol (W j idx) <= 1.
Proof.
  intros Hj Hidx. apply binary_bounds. simpl. unfold declared.
  do 3 (apply in_or_app; right). apply in_or_app. left.
  apply in_flat_map. exists j. split; [assumption |].
  apply in_map_iff. exists idx. split; [reflexivity |]. apply in_seq. lia.
Qed.

Lemma uber_nonneg (i : string) : In i (locations inp) -> 0 <= sol (Uber i).
Proof.
  intros Hi. apply integer_bounds. simpl. unfold declared.
  do 4 (apply in_or_app; right). apply in_map_iff. now exists i.
Qed.

(** Constraint 6. *)
Lemma demand_cover_holds (i : string) :
  In i (locations inp) ->
  Spec.picked_at inp sol i + sol (Uber i) = demand_of inp i.
Proof.
  intros Hi.
  assert (In {| c_name := "demand_cover_" ++ i;
                c_lhs := plus (lpSum (map (fun j => of_var (Y j i)) (drivers inp)))
                              (of_var (Uber i));
                c_sense := EQ;
                c_rhs := lit (demand_of inp i) |} (constraints (build inp))) as Hin.
  { simpl. do 5 (apply in_or_app; right). unfold demand_cover.
    apply in_map_iff. now exists i. }
  apply feasible_holds in Hin. unfold holds in Hin. simpl in Hin.
  autorewrite with eval in Hin. apply Z.eqb_eq in Hin. exact Hin.
Qed.

(** Constraint 4. *)
Lemma max2stops_holds (j : string) :
  In j (drivers inp) ->
  fold_right Z.add 0 (map (fun i => sol (X j i)) (locations inp)) <= 2.
Proof.
  intros Hj.
  assert (In {| c_name := "max2stops_" ++ j;
                c_lhs := lpSum (map (fun i => of_var (X j i)) (locations inp));
                c_sense := LE;
                c_rhs := lit 2 |} (constraints (build inp))) as Hin.
  { simpl. do 3 (apply in_or_app; right). apply in_or_app. left. unfold max2stops.
    apply in_map_iff. now exists j. }
  apply feasible_holds in Hin. unfold holds in Hin. simpl in Hin.
  autorewrite with eval in Hin. apply Z.leb_le in Hin. exact Hin.
Qed.

(** Constraint 5, the three inequalities of one indexed pair. *)
Lemma pair_link_holds (j : string) (idx : nat) (i k : string) :
  In j (drivers inp) ->
  In (idx, (i, k)) (indexed (pairs inp)) ->
  sol (W j idx) <= sol (X j i)
  /\ sol (W j idx) <= sol (X j k)
  /\ sol (X j i) + sol (X j k) - 1 <= sol (W j idx).
Proof.
  intros Hj He.
  assert (forall c,
             In c [ {| c_name := "w_le_x1_" ++ j ++ "_" ++ i ++ "_" ++ k;
                       c_lhs := of_var (W j idx); c_sense := LE; c_rhs := of_var (X j i) |};
                    {| c_name := "w_le_x2_" ++ j ++ "_" ++ i ++ "_" ++ k;
                       c_lhs := of_var (W j idx); c_sense := LE; c_rhs := of_var (X j k) |};
                    {| c_name := "w_ge_summinus1_" ++ j ++ "_" ++ i ++ "_" ++ k;
                       c_lhs := of_var (W j idx); c_sense := GE;
                       c_rhs := minus (plus (of_var (X j i)) (of_var (X j k))) (lit 1) |} ] ->
             holds sol c = true) as Hall.
  { intros c Hc. apply feasible_holds. simpl.
    do 4 (apply in_or_app; right). apply in_or_app. left. unfold pair_link.
    apply in_flat_map. exists j. split; [assumption |].
    apply in_flat_map. exists (idx, (i, k)). split; [assumption | exact Hc]. }
  pose proof (Hall _ (or_introl eq_refl)) as H1.
  pose proof (Hall _ (or_intror (or_introl eq_refl))) as H2.
  pose proof (Hall _ (or_intror (or_intror (or_introl eq_refl)))) as H3.
  unfold holds in H1, H2, H3. simpl in H1, H2, H3.
  autorewrite with eval in H1, H2, H3.
  apply Z.leb_le in H1, H2, H3. lia.
Qed.

End Feasible.

Lemma indexed_from (ps : list (string * string)) :
  forall (start idx : nat) (p : string * string),
    In (idx, p) (combine (seq start (List.length ps)) ps)
    <-> (start <= idx)%nat /\ nth_error ps (idx - start) = Some p.
Proof.
  induction ps as [| q ps IH]; intros start idx p; simpl.
  - split; [intros [] | intros [_ H]]. destruct (idx - start)%nat; discriminate H.
  - split.
    + intros [Heq | Hin].
      * inversion Heq; subst. split; [lia | now rewrite Nat.sub_diag].
      * apply IH in Hin. destruct Hin as [Hle Hnth]. split; [lia |].
        replace (idx - start)%nat with (S (idx - S start)) by lia. exact Hnth.
    + intros [Hle Hnth]. destruct (Nat.eq_dec idx start) as [-> | Hne].
      * rewrite Nat.sub_diag in Hnth. simpl in Hnth. inversion Hnth. now left.
      * right. apply IH. split; [lia |].
        replace (idx - start)%nat with (S (idx - S start)) in Hnth by lia. exact Hnth.
Qed.

Lemma indexed_nth (ps : list (string * string)) (idx : nat) (p : string * string) :
  nth_error ps idx = Some p <-> In (idx, p) (indexed ps).
Proof.
  unfold indexed. rewrite indexed_from, Nat.sub_0_r. split; [split; [lia | assumption] | tauto].
Qed.

(** ** Invariants of every feasible point *)

(** C3: in every feasible point of the built model and at every
    location, the pickups of all driver rows plus the ride-service
    leftover equal the number of students at that location. *)
Theorem demand_covered_exactly (wb : workbook) (inp : inputs) (sol : solution) (i : string) :
  result_of (normalize wb) = Ok inp ->
  feasible (build inp) sol ->
  In i (locations inp) ->
  Spec.picked_at inp sol i + sol (Uber i) = Spec.students_at wb i.
Proof.
  intros Hn Hfeas Hi.
  rewrite <- (demand_counts_students wb inp i Hn Hi).
  now apply demand_cover_holds.
Qed.

Lemma demand_covered_exactly_witness :
  Spec.picked_at (Scenario.inputs_of Scenario.wb_far) Scenario.sol_d1_takes_A "B"
  + Scenario.sol_d1_takes_A (Uber "B")
  = Spec.students_at Scenario.wb_far "B".
Proof.
  apply (demand_covered_exactly Scenario.wb_far (Scenario.inputs_of Scenario.wb_far)
                                Scenario.sol_d1_takes_A "B").
  - reflexivity.
  - split; vm_compute; reflexivity.
  - right. left. reflexivity.
Defined.

Lemma picked_at_nonneg (inp : inputs) (sol : solution) (i : string) :
  feasible (build inp) sol -> In i (locations inp) -> 0 <= Spec.picked_at inp sol i.
Proof.
  intros Hfeas Hi. unfold Spec.picked_at.
  pose proof (fun j => pickup_nonneg inp sol Hfeas j i) as Hy.
  induction (drivers inp) as [| j ds IH]; simpl; [lia |].
  assert (0 <= sol (Y j i)) by (apply Hy; [now left | assumption]).
  assert (0 <= fold_right Z.add 0 (map (fun j => sol (Y j i)) ds)).
  { apply IH. intros j' Hj'. apply Hy. now right. }
  lia.
Qed.

(** C10: in every feasible point of the built model the ride-service
    leftover of a location lies between zero and the number of students
    at that location. *)
Theorem leftover_within_demand (wb : workbook) (inp : inputs) (sol : solution) (i : string) :
  result_of (normalize wb) = Ok inp ->
  feasible (build inp) sol ->
  In i (locations inp) ->
  0 <= sol (Uber i) <= Spec.students_at wb i.
Proof.
  intros Hn Hfeas Hi.
  pose proof (demand_cover_holds inp sol Hfeas i Hi) as Hcover.
  rewrite (demand_counts_students wb inp i Hn Hi) in Hcover.
  pose proof (picked_at_nonneg inp sol i Hfeas Hi) as Hpicked.
  pose proof (uber_nonneg inp sol Hfeas i Hi) as Hu.
  lia.
Qed.

Lemma leftover_within_demand_witness :
  0 <= Scenario.sol_d1_takes_A (Uber "B") <= Spec.students_at Scenario.wb_far "B".
Proof.
  apply (leftover_within_demand Scenario.wb_far (Scenario.inputs_of Scenario.wb_far)
                                Scenario.sol_d1_takes_A "B").
  - reflexivity.
  - split; vm_compute; reflexivity.
  - right. left. reflexivity.
Defined.

(** C6: in every feasible point of the built model, for every driver and
    every pair of the pair list, the pairing variable is 1 exactly when
    both visit flags of the pair are 1. *)
Theorem pair_is_and_of_visits (inp : inputs) (sol : solution)
        (j : string) (idx : nat) (i k : string) :
  feasible (build inp) sol ->
  In j (drivers inp) ->
  nth_error (pairs inp) idx = Some (i, k) ->
  (sol (W j idx) = 1 <-> sol (X j i) = 1 /\ sol (X j k) = 1).
Proof.
  intros Hfeas Hj Hnth.
  assert (In i (locations inp) /\ In k (locations inp)) as [Hi Hk].
  { apply (build_pairs_In (travel inp)). apply nth_error_In with idx. exact Hnth. }
  assert (idx < List.length (pairs inp))%nat as Hlt.
  { apply nth_error_Some. congruence. }
  pose proof (pair_binary inp sol Hfeas j idx Hj Hlt) as Hw.
  pose proof (visit_binary inp sol Hfeas j i Hj Hi) as Hxi.
  pose proof (visit_binary inp sol Hfeas j k Hj Hk) as Hxk.
  apply indexed_nth in Hnth.
  pose proof (pair_link_holds inp sol Hfeas j idx i k Hj Hnth) as Hlink.
  lia.
Qed.

Lemma pair_is_and_of_visits_witness :
  Scenario.sol_d1_takes_both (W "d1" 0)  = 1
  <-> Scenario.sol_d1_takes_both (X "d1" "A") = 1 /\ Scenario.sol_d1_takes_both (X "d1" "B") = 1.
Proof.
  apply (pair_is_and_of_visits (Scenario.inputs_of Scenario.wb_far)
                               Scenario.sol_d1_takes_both "d1" 0 "A" "B").
  - split; vm_compute; reflexivity.
  - left. reflexivity.
  - reflexivity.
Defined.

(** ** The objective *)

Local Open Scope Q_scope.

Lemma qeval_const_shift (sol : solution) (ts : list (Q * var)) (c : Q) :
  qeval sol {| terms := ts; const := c |} == qeval sol {| terms := ts; const := 0 |} + c.
Proof.
  unfold qeval. simpl. induction ts as [| t ts IH]; simpl; [| rewrite IH]; ring.
Qed.

Lemma qeval_qplus (sol : solution) (a b : affine Q) :
  qeval sol (qplus a b) == qeval sol a + qeval sol b.
Proof.
  destruct a as [ta ca], b as [tb cb]. unfold qplus. simpl.
  rewrite (qeval_const_shift sol (ta ++ tb)), (qeval_const_shift sol ta),
    (qeval_const_shift sol tb).
  unfold qeval. simpl. induction ta as [| t ta IH]; simpl.
  - ring.
  - setoid_replace (fold_right (fun t acc => fst t * inject_Z (sol (snd t)) + acc) 0 (ta ++ tb))
      with (fold_right (fun t acc => fst t * inject_Z (sol (snd t)) + acc) 0 ta
            + fold_right (fun t acc => fst t * inject_Z (sol (snd t)) + acc) 0 tb).
    + ring.
    + lra.
Qed.

Lemma qeval_qscale (sol : solution) (k : Q) (e : affine Q) :
  qeval sol (qscale k e) == k * qeval sol e.
Proof.
  destruct e as [ts c]. unfold qscale, qeval. simpl.
  induction ts as [| t ts IH]; simpl; [| rewrite IH]; ring.
Qed.

Lemma qeval_inj (sol : solution) (e : affine Z) :
  qeval sol (inj e) == inject_Z (eval sol e).
Proof.
  destruct e as [ts c]. unfold inj, qeval, eval. simpl.
  induction ts as [| t ts IH]; simpl.
  - reflexivity.
  - rewrite IH, inject_Z_plus, inject_Z_mult. reflexivity.
Qed.

Lemma qeval_qterm (sol : solution) (k : Q) (v : var) :
  qeval sol (qterm k v) == k * inject_Z (sol v).
Proof. unfold qterm, qeval. simpl. ring. Qed.

Lemma qeval_qlpSum_app (sol : solution) (l1 l2 : list (affine Q)) :
  qeval sol (qlpSum (l1 ++ l2)) == qeval sol (qlpSum l1) + qeval sol (qlpSum l2).
Proof.
  induction l1 as [| a l1 IH]; simpl.
  - unfold qeval at 2. simpl. ring.
  - rewrite !qeval_qplus, IH. ring.
Qed.

Lemma qeval_qlpSum_terms {A} (sol : solution) (c : A -> Q) (v : A -> var) (l : list A) :
  qeval sol (qlpSum (map (fun a => qterm (c a) (v a)) l))
  == fold_right Qplus 0 (map (fun a => c a * inject_Z (sol (v a))) l).
Proof.
  induction l as [| a l IH]; simpl.
  - reflexivity.
  - rewrite qeval_qplus, qeval_qterm, IH. reflexivity.
Qed.

Lemma qeval_total_travel_time (inp : inputs) (sol : solution) :
  qeval sol (total_travel_time inp) == travel_total inp sol.
Proof.
  unfold total_travel_time, travel_total.
  induction (drivers inp) as [| j ds IH]; simpl.
  - reflexivity.
  - rewrite qeval_qlpSum_app, IH.
    rewrite (qeval_qlpSum_terms sol (pair_cost inp) (fun e => W j (fst e))).
    reflexivity.
Qed.

(** The objective is the weighted sum of the three totals. *)
Lemma objective_value_split (inp : inputs) (sol : solution) :
  objective_value (build inp) sol
  == inject_Z BIG_UBER * inject_Z (uber_total inp sol)
     + inject_Z BIG_DRIVER * inject_Z (drivers_used inp sol)
     + inject_Z SMALL_TRIP * travel_total inp sol.
Proof.
  unfold objective_value. simpl. unfold objective_expr.
  rewrite !qeval_qplus, !qeval_qscale, !qeval_inj, qeval_total_travel_time.
  unfold uber_penalty, total_drivers_used. rewrite !eval_lpSum_vars.
  reflexivity.
Qed.

(** ** At most one pair per driver *)

(** The pairs that start at [i]: their variables sum to at most
    [x i] times the visits among the later locations. *)
Lemma pairs_from_bound (x : string -> Z) (i : string) (f : string -> bool) :
  forall (later : list string) (ws : list Z),
    (0 <= x i <= 1)%Z ->
    (forall k, In k later -> 0 <= x k <= 1)%Z ->
    Forall2 (fun p w => 0 <= w /\ w <= x (fst p) /\ w <= x (snd p))%Z
            (map (fun k => (i, k)) (filter f later)) ws ->
    (0 <= fold_right Z.add 0 ws <= x i * fold_right Z.add 0 (map x later))%Z.
Proof.
  induction later as [| k rest IH]; intros ws Hi Hlater Hall; simpl in *.
  - inversion Hall; subst. simpl. lia.
  - assert (0 <= x k <= 1)%Z as Hk by (apply Hlater; now left).
    assert (forall k', In k' rest -> 0 <= x k' <= 1)%Z as Hrest
        by (intros k' Hk'; apply Hlater; now right).
    assert (0 <= fold_right Z.add 0 (map x rest))%Z as Hsum.
    { clear -Hrest. induction rest as [| r rest IH]; simpl; [lia |].
      assert (0 <= x r <= 1)%Z by (apply Hrest; now left).
      assert (0 <= fold_right Z.add 0 (map x rest))%Z
        by (apply IH; intros k' Hk'; apply Hrest; now right).
      lia. }
    destruct (f k).
    + simpl in Hall. inversion Hall as [| p w ps ws' Hw Hall']; subst. simpl in *.
      specialize (IH ws' Hi Hrest Hall'). nia.
    + specialize (IH ws Hi Hrest Hall). nia.
Qed.

(** With [S] visits among the locations, at most [S (S - 1) / 2] pairs
    have their variable at 1. *)
Lemma pairs_sum_bound (x : string -> Z) (t : list (string * list (string * Py.pyval))) :
  forall (ls : list string) (ws : list Z),
    (forall k, In k ls -> 0 <= x k <= 1)%Z ->
    Forall2 (fun p w => 0 <= w /\ w <= x (fst p) /\ w <= x (snd p))%Z (build_pairs t ls) ws ->
    (0 <= fold_right Z.add 0 ws
     /\ 0 <= fold_right Z.add 0 (map x ls)
     /\ 2 * fold_right Z.add 0 ws
        <= fold_right Z.add 0 (map x ls) * (fold_right Z.add 0 (map x ls) - 1))%Z.
Proof.
  induction ls as [| i later IH]; intros ws Hx Hall;
    cbn [build_pairs map fold_right] in *.
  - inversion Hall; subst. cbn [fold_right]. lia.
  - apply Forall2_app_inv_l in Hall. destruct Hall as [ws1 [ws2 [H1 [H2 ->]]]].
    assert (0 <= x i <= 1)%Z as Hi by (apply Hx; now left).
    assert (forall k, In k later -> 0 <= x k <= 1)%Z as Hlater
        by (intros k Hk; apply Hx; now right).
    pose proof (pairs_from_bound x i _ later ws1 Hi Hlater H1) as B1.
    destruct (IH ws2 Hlater H2) as [B2 [B3 B4]].
    assert (fold_right Z.add 0 (ws1 ++ ws2)
            = fold_right Z.add 0 ws1 + fold_right Z.add 0 ws2)%Z as ->.
    { clear. induction ws1 as [| w ws1 IH]; simpl; lia. }
    set (s := fold_right Z.add 0%Z (map x later)) in *.
    set (a := x i) in *. clearbody a s.
    assert (a = 0 \/ a = 1)%Z as [-> | ->] by lia; repeat split; nia.
Qed.

Lemma Forall2_indexed {R : string * string -> Z -> Prop} (g : nat -> Z)
      (ps : list (string * string)) :
  forall start,
    (forall idx p, In (idx, p) (combine (seq start (List.length ps)) ps) -> R p (g idx)) ->
    Forall2 R ps (map (fun e => g (fst e)) (combine (seq start (List.length ps)) ps)).
Proof.
  induction ps as [| p ps IH]; intros start H; simpl.
  - constructor.
  - constructor.
    + apply H. now left.
    + apply IH. intros idx q Hq. apply H. now right.
Qed.

(** In a feasible point a driver has at most one pair variable at 1. *)
Lemma one_pair_per_driver (inp : inputs) (sol : solution) (j : string) :
  feasible (build inp) sol ->
  In j (drivers inp) ->
  (0 <= fold_right Z.add 0 (map (fun e => sol (W j (fst e))) (indexed (pairs inp))) <= 1)%Z.
Proof.
  intros Hfeas Hj.
  assert (Forall2 (fun p w => 0 <= w /\ w <= sol (X j (fst p)) /\ w <= sol (X j (snd p)))%Z
                  (pairs inp)
                  (map (fun e => sol (W j (fst e))) (indexed (pairs inp)))) as Hall.
  { unfold indexed. apply (Forall2_indexed (fun idx => sol (W j idx))).
    intros idx [i k] He. simpl.
    pose proof (pair_link_holds inp sol Hfeas j idx i k Hj He) as Hlink.
    assert (idx < List.length (pairs inp))%nat as Hlt.
    { apply indexed_nth in He. apply nth_error_Some. congruence. }
    pose proof (pair_binary inp sol Hfeas j idx Hj Hlt). lia. }
  pose proof (pairs_sum_bound (fun i => sol (X j i)) (travel inp) (locations inp) _
                (fun k Hk => visit_binary inp sol Hfeas j k Hj Hk) Hall) as [B1 [B0 B2]].
  pose proof (max2stops_holds inp sol Hfeas j Hj) as B3.
  nia.
Qed.

(** ** Bounds on the two lower terms of the objective *)

Lemma weighted_sum_bound {A} (c : A -> Q) (w : A -> Z) (T : Q) (l : list A) :
  0 <= T ->
  (forall a, In a l -> 0 <= c a <= T /\ (0 <= w a)%Z) ->
  0 <= fold_right Qplus 0 (map (fun a => c a * inject_Z (w a)) l)
  /\ fold_right Qplus 0 (map (fun a => c a * inject_Z (w a)) l)
     <= T * inject_Z (fold_right Z.add 0%Z (map w l)).
Proof.
  intros HT. induction l as [| a l IH]; intros H; simpl.
  - split; [apply Qle_refl | rewrite Qmult_0_r; apply Qle_refl].
  - destruct (H a (or_introl eq_refl)) as [[Hc0 HcT] Hw].
    destruct IH as [IH0 IH1]; [intros b Hb; apply H; now right |].
    assert (0 <= inject_Z (w a)) as HW.
    { change 0 with (inject_Z 0). now rewrite <- Zle_Qle. }
    pose proof (Qmult_le_0_compat _ _ Hc0 HW) as P0.
    pose proof (Qmult_le_compat_r _ _ _ HcT HW) as P1.
    rewrite inject_Z_plus. split; lra.
Qed.

Section Bounds.
Variable inp : inputs.
Variable sol : solution.
Variable T : Q.
Hypothesis Hfeas : feasible (build inp) sol.
Hypothesis HT : 0 <= T.
Hypothesis Hcost : forall e, In e (indexed (pairs inp)) -> 0 <= pair_cost inp e <= T.

Lemma driver_travel_bound (j : string) :
  In j (drivers inp) -> 0 <= driver_travel inp sol j <= T.
Proof.
  intros Hj. unfold driver_travel.
  destruct (weighted_sum_bound (pair_cost inp) (fun e => sol (W j (fst e))) T
              (indexed (pairs inp)) HT) as [B0 B1].
  { intros [idx p] He. split; [now apply Hcost |]. simpl.
    assert (idx < List.length (pairs inp))%nat as Hlt.
    { apply indexed_nth in He. apply nth_error_Some. congruence. }
    pose proof (pair_binary inp sol Hfeas j idx Hj Hlt). lia. }
  split; [exact B0 |].
  pose proof (one_pair_per_driver inp sol j Hfeas Hj) as [_ Hone].
  rewrite Zle_Qle in Hone.
  pose proof (Qmult_le_compat_r _ _ _ Hone HT) as P.
  change (inject_Z 1) with 1 in P. lra.
Qed.

Lemma travel_sum_bound (ds : list string) :
  (forall j, In j ds -> In j (drivers inp)) ->
  0 <= fold_right Qplus 0 (map (driver_travel inp sol) ds)
  /\ fold_right Qplus 0 (map (driver_travel inp sol) ds)
     <= inject_Z (Z.of_nat (List.length ds)) * T.
Proof.
  induction ds as [| j ds IH]; intros Hin.
  - simpl. split; [apply Qle_refl | rewrite Qmult_0_l; apply Qle_refl].
  - destruct IH as [IH0 IH1]; [intros j' Hj'; apply Hin; now right |].
    destruct (driver_travel_bound j (Hin j (or_introl eq_refl))) as [D0 D1].
    cbn [List.length map fold_right]. rewrite Nat2Z.inj_succ.
    unfold Z.succ. rewrite inject_Z_plus. change (inject_Z 1) with 1.
    split; lra.
Qed.

Lemma travel_total_bound :
  0 <= travel_total inp sol
  /\ travel_total inp sol <= inject_Z (Z.of_nat (List.length (drivers inp))) * T.
Proof. apply travel_sum_bound. auto. Qed.

Lemma drivers_used_bound :
  (0 <= drivers_used inp sol <= Z.of_nat (List.length (drivers inp)))%Z.
Proof.
  unfold drivers_used.
  pose proof (used_binary inp sol Hfeas) as Hu.
  induction (drivers inp) as [| j ds IH].
  - simpl. lia.
  - cbn [List.length map fold_right]. rewrite Nat2Z.inj_succ.
    assert (0 <= sol (U j) <= 1)%Z by (apply Hu; now left).
    assert (0 <= fold_right Z.add 0 (map (fun j => sol (U j)) ds) <= Z.of_nat (List.length ds))%Z
      by (apply IH; intros j' Hj'; apply Hu; now right).
    lia.
Qed.

End Bounds.

(** ** Dominance of the weights *)

(** C2, as stated, fails.  With A and B 20000 apart and one driver, the
    point where the driver takes both students uses no ride service and
    costs more than the point that sends one student with the ride
    service.  With A and B 11 apart and two drivers, one driver taking
    both students costs more than two drivers taking one each. *)
Lemma travel_outweighs_higher_terms :
  (feasible (build (Scenario.inputs_of Scenario.wb_far)) Scenario.sol_d1_takes_both
   /\ feasible (build (Scenario.inputs_of Scenario.wb_far)) Scenario.sol_d1_takes_A
   /\ (uber_total (Scenario.inputs_of Scenario.wb_far) Scenario.sol_d1_takes_both
       < uber_total (Scenario.inputs_of Scenario.wb_far) Scenario.sol_d1_takes_A)%Z
   /\ ~ objective_value (build (Scenario.inputs_of Scenario.wb_far)) Scenario.sol_d1_takes_both
        < objective_value (build (Scenario.inputs_of Scenario.wb_far)) Scenario.sol_d1_takes_A)
  /\ (feasible (build (Scenario.inputs_of Scenario.wb_near)) Scenario.sol_d1_takes_both
      /\ feasible (build (Scenario.inputs_of Scenario.wb_near)) Scenario.sol_one_each
      /\ uber_total (Scenario.inputs_of Scenario.wb_near) Scenario.sol_d1_takes_both
         = uber_total (Scenario.inputs_of Scenario.wb_near) Scenario.sol_one_each
      /\ (drivers_used (Scenario.inputs_of Scenario.wb_near) Scenario.sol_d1_takes_both
          < drivers_used (Scenario.inputs_of Scenario.wb_near) Scenario.sol_one_each)%Z
      /\ ~ objective_value (build (Scenario.inputs_of Scenario.wb_near)) Scenario.sol_d1_takes_both
           < objective_value (build (Scenario.inputs_of Scenario.wb_near)) Scenario.sol_one_each).
Proof.
  repeat split; try (vm_compute; reflexivity); vm_compute; discriminate.
Qed.

(** C2, amended: the weights dominate as long as the lower terms stay
    within bounds.  Let the model have [n] driver rows and every pair of
    the pair list a travel value between 0 and [T].  If
    [10^5 n + 10^4 n T < 10^8], a feasible point with strictly fewer
    ride-service students has a strictly smaller objective; and if
    [10^4 n T < 10^5], a feasible point with no more ride-service
    students and strictly fewer used drivers has a strictly smaller
    objective. *)
Theorem weights_dominate_within_bounds (inp : inputs) (A B : solution) (T : Q) :
  feasible (build inp) A ->
  feasible (build inp) B ->
  0 <= T ->
  (forall e, In e (indexed (pairs inp)) -> 0 <= pair_cost inp e <= T) ->
  (inject_Z BIG_DRIVER * inject_Z (Z.of_nat (List.length (drivers inp)))
   + inject_Z SMALL_TRIP * (inject_Z (Z.of_nat (List.length (drivers inp))) * T)
   < inject_Z BIG_UBER ->
   (uber_total inp A < uber_total inp B)%Z ->
   objective_value (build inp) A < objective_value (build inp) B)
  /\ (inject_Z SMALL_TRIP * (inject_Z (Z.of_nat (List.length (drivers inp))) * T)
      < inject_Z BIG_DRIVER ->
      (uber_total inp A <= uber_total inp B)%Z ->
      (drivers_used inp A < drivers_used inp B)%Z ->
      objective_value (build inp) A < objective_value (build inp) B).
Proof.
  intros HA HB HT Hcost.
  rewrite !objective_value_split.
  destruct (travel_total_bound inp A T HA HT Hcost) as [_ HtA].
  destruct (travel_total_bound inp B T HB HT Hcost) as [HtB _].
  pose proof (drivers_used_bound inp A HA) as [_ HdA].
  pose proof (drivers_used_bound inp B HB) as [HdB _].
  rewrite Zle_Qle in HdA, HdB.
  change (inject_Z 0) with 0 in HdB.
  change (inject_Z BIG_UBER) with (100000000 # 1).
  change (inject_Z BIG_DRIVER) with (100000 # 1).
  change (inject_Z SMALL_TRIP) with (10000 # 1).
  set (n := inject_Z (Z.of_nat (List.length (drivers inp)))) in *.
  set (nT := n * T) in *.
  split.
  - intros Hw Hu.
    assert (uber_total inp A + 1 <= uber_total inp B)%Z as Hu' by lia.
    rewrite Zle_Qle, inject_Z_plus in Hu'. change (inject_Z 1) with 1 in Hu'.
    lra.
  - intros Hw Hu Hd.
    assert (drivers_used inp A + 1 <= drivers_used inp B)%Z as Hd' by lia.
    rewrite Zle_Qle in Hu. rewrite Zle_Qle, inject_Z_plus in Hd'.
    change (inject_Z 1) with 1 in Hd'.
    lra.
Qed.

Lemma weights_dominate_within_bounds_witness :
  objective_value (build (Scenario.inputs_of Scenario.wb_ten)) Scenario.sol_d1_takes_both
  < objective_value (build (Scenario.inputs_of Scenario.wb_ten)) Scenario.sol_d1_takes_A.
Proof.
  assert (feasible (build (Scenario.inputs_of Scenario.wb_ten)) Scenario.sol_d1_takes_both)
    as HA by (split; vm_compute; reflexivity).
  assert (feasible (build (Scenario.inputs_of Scenario.wb_ten)) Scenario.sol_d1_takes_A)
    as HB by (split; vm_compute; reflexivity).
  assert (0 <= 10 # 1) as HT by (vm_compute; discriminate).
  assert (forall e, In e (indexed (pairs (Scenario.inputs_of Scenario.wb_ten))) ->
                    0 <= pair_cost (Scenario.inputs_of Scenario.wb_ten) e <= 10 # 1) as Hcost.
  { intros e He. vm_compute in He. destruct He as [<- | []].
    split; vm_compute; discriminate. }
  destruct (weights_dominate_within_bounds (Scenario.inputs_of Scenario.wb_ten)
              Scenario.sol_d1_takes_both Scenario.sol_d1_takes_A (10 # 1) HA HB HT Hcost)
    as [Huber _].
  apply Huber; vm_compute; reflexivity.
Defined.

(** * Further properties of the model and of the extraction *)

Local Close Scope Q_scope.

(** ** The capacity, usage and stop constraints *)

Lemma sum_nonneg_le {A} (f : A -> Z) (l : list A) (a : A) :
  (forall b, In b l -> 0 <= f b) -> In a l -> f a <= fold_right Z.add 0 (map f l).
Proof.
  induction l as [| b l IH]; intros Hf Hin; [destruct Hin |].
  simpl. assert (0 <= f b) by (apply Hf; now left).
  assert (0 <= fold_right Z.add 0 (map f l)) as Hs.
  { clear -Hf. induction l as [| c l IH]; simpl; [lia |].
    assert (0 <= f c) by (apply Hf; right; now left).
    assert (0 <= fold_right Z.add 0 (map f l))
      by (apply IH; intros d [Hd | Hd]; apply Hf; [now left | right; now right]).
    lia. }
  destruct Hin as [-> | Hin]; [lia |].
  assert (f a <= fold_right Z.add 0 (map f l)) by (apply IH; [intros; apply Hf; now right | assumption]).
  lia.
Qed.

Section Constraints.
Variable inp : inputs.
Variable sol : solution.
Hypothesis Hfeas : feasible (build inp) sol.

(** Constraint 1. *)
Lemma cap_link_holds (j i : string) :
  In j (drivers inp) -> In i (locations inp) ->
  sol (Y j i) <= cap_of inp j * sol (X j i).
Proof.
  intros Hj Hi.
  assert (In {| c_name := "cap_link_" ++ j ++ "_" ++ i;
                c_lhs := of_var (Y j i); c_sense := LE;
                c_rhs := scale (cap_of inp j) (of_var (X j i)) |}
             (constraints (build inp))) as Hin.
  { simpl. apply in_or_app. left. unfold cap_link.
    apply in_flat_map. exists j. split; [assumption |].
    apply in_map_iff. now exists i. }
  apply (feasible_holds inp sol Hfeas) in Hin. unfold holds in Hin. simpl in Hin.
  autorewrite with eval in Hin. apply Z.leb_le in Hin. exact Hin.
Qed.

(** Constraint 2. *)
Lemma driver_cap_holds (j : string) :
  In j (drivers inp) ->
  fold_right Z.add 0 (map (fun i => sol (Y j i)) (locations inp)) <= cap_of inp j * sol (U j).
Proof.
  intros Hj.
  assert (In {| c_name := "driver_cap_" ++ j;
                c_lhs := lpSum (map (fun i => of_var (Y j i)) (locations inp)); c_sense := LE;
                c_rhs := scale (cap_of inp j) (of_var (U j)) |}
             (constraints (build inp))) as Hin.
  { simpl. apply in_or_app. right. apply in_or_app. left. unfold driver_cap.
    apply in_map_iff. now exists j. }
  apply (feasible_holds inp sol Hfeas) in Hin. unfold holds in Hin. simpl in Hin.
  autorewrite with eval in Hin. apply Z.leb_le in Hin. exact Hin.
Qed.

(** Constraint 3. *)
Lemma use_def_holds (j : string) :
  In j (drivers inp) ->
  fold_right Z.add 0 (map (fun i => sol (X j i)) (locations inp)) <= 1000 * sol (U j).
Proof.
  intros Hj.
  assert (In {| c_name := "use_def_" ++ j;
                c_lhs := lpSum (map (fun i => of_var (X j i)) (locations inp)); c_sense := LE;
                c_rhs := scale 1000 (of_var (U j)) |}
             (constraints (build inp))) as Hin.
  { simpl. do 2 (apply in_or_app; right). apply in_or_app. left. unfold use_def.
    apply in_map_iff. now exists j. }
  apply (feasible_holds inp sol Hfeas) in Hin. unfold holds in Hin. simpl in Hin.
  autorewrite with eval in Hin. apply Z.leb_le in Hin. exact Hin.
Qed.

End Constraints.

(** X1: in a feasible point a driver picks students up only at a
    location it stops at, whatever its capacity. *)
Theorem pickup_requires_visit (inp : inputs) (sol : solution) (j i : string) :
  feasible (build inp) sol ->
  In j (drivers inp) -> In i (locations inp) ->
  0 < sol (Y j i) ->
  sol (X j i) = 1.
Proof.
  intros Hfeas Hj Hi Hpos.
  pose proof (cap_link_holds inp sol Hfeas j i Hj Hi) as Hlink.
  pose proof (visit_binary inp sol Hfeas j i Hj Hi) as Hx.
  assert (sol (X j i) = 0 \/ sol (X j i) = 1) as [E | E] by lia; [| exact E].
  rewrite E in Hlink. lia.
Qed.

Lemma pickup_requires_visit_witness :
  Scenario.sol_d1_takes_A (X "d1" "A") = 1.
Proof.
  apply (pickup_requires_visit (Scenario.inputs_of Scenario.wb_far) Scenario.sol_d1_takes_A).
  - split; vm_compute; reflexivity.
  - left. reflexivity.
  - left. reflexivity.
  - reflexivity.
Defined.

(** X2: in a feasible point the pickups of a driver over all locations
    stay within the capacity its name stands for, and a driver that is
    not used picks nobody up. *)
Theorem capacity_respected (inp : inputs) (sol : solution) (j : string) :
  feasible (build inp) sol ->
  In j (drivers inp) ->
  (0 <= cap_of inp j ->
   fold_right Z.add 0 (map (fun i => sol (Y j i)) (locations inp)) <= cap_of inp j)
  /\ (sol (U j) = 0 -> forall i, In i (locations inp) -> sol (Y j i) = 0).
Proof.
  intros Hfeas Hj.
  pose proof (driver_cap_holds inp sol Hfeas j Hj) as Hcap.
  pose proof (used_binary inp sol Hfeas j Hj) as Hu.
  split.
  - intros Hc. nia.
  - intros Hzero i Hi. rewrite Hzero, Z.mul_0_r in Hcap.
    pose proof (sum_nonneg_le (fun i => sol (Y j i)) (locations inp) i
                  (fun b Hb => pickup_nonneg inp sol Hfeas j b Hj Hb) Hi) as Hle.
    pose proof (pickup_nonneg inp sol Hfeas j i Hj Hi). simpl in Hle. lia.
Qed.

Lemma capacity_respected_witness :
  fold_right Z.add 0
    (map (fun i => Scenario.sol_d1_takes_both (Y "d1" i))
         (locations (Scenario.inputs_of Scenario.wb_far)))
  <= cap_of (Scenario.inputs_of Scenario.wb_far) "d1".
Proof.
  apply (capacity_respected (Scenario.inputs_of Scenario.wb_far) Scenario.sol_d1_takes_both "d1").
  - split; vm_compute; reflexivity.
  - left. reflexivity.
  - vm_compute. discriminate.
Defined.

(** X3: in a feasible point a driver that stops anywhere is counted as
    used. *)
Theorem visit_forces_used (inp : inputs) (sol : solution) (j i : string) :
  feasible (build inp) sol ->
  In j (drivers inp) -> In i (locations inp) ->
  sol (X j i) = 1 ->
  sol (U j) = 1.
Proof.
  intros Hfeas Hj Hi Hvisit.
  pose proof (use_def_holds inp sol Hfeas j Hj) as Huse.
  pose proof (used_binary inp sol Hfeas j Hj) as Hu.
  pose proof (sum_nonneg_le (fun i => sol (X j i)) (locations inp) i
                (fun b Hb => proj1 (visit_binary inp sol Hfeas j b Hj Hb)) Hi) as Hle.
  simpl in Hle. lia.
Qed.

Lemma visit_forces_used_witness :
  Scenario.sol_d1_takes_A (U "d1") = 1.
Proof.
  apply (visit_forces_used (Scenario.inputs_of Scenario.wb_far) Scenario.sol_d1_takes_A "d1" "A").
  - split; vm_compute; reflexivity.
  - left. reflexivity.
  - left. reflexivity.
  - reflexivity.
Defined.

Lemma count_ones (x : string -> Z) (ls : list string) :
  (forall i, In i ls -> 0 <= x i <= 1) ->
  Z.of_nat (List.length (filter (fun i => x i =? 1) ls)) = fold_right Z.add 0 (map x ls).
Proof.
  induction ls as [| i ls IH]; intros Hx; [reflexivity |].
  assert (0 <= x i <= 1) as Hi by (apply Hx; now left).
  assert (Z.of_nat (List.length (filter (fun i => x i =? 1) ls))
          = fold_right Z.add 0 (map x ls)) as IH'
      by (apply IH; intros k Hk; apply Hx; now right).
  cbn [filter map fold_right]. destruct (x i =? 1) eqn:E.
  - apply Z.eqb_eq in E. cbn [List.length]. lia.
  - apply Z.eqb_neq in E. lia.
Qed.

(** X4: in a feasible point a driver stops at no more than two of the
    locations. *)
Theorem at_most_two_stops (inp : inputs) (sol : solution) (j : string) :
  feasible (build inp) sol ->
  In j (drivers inp) ->
  (Points.stops inp sol j <= 2)%nat.
Proof.
  intros Hfeas Hj. unfold Points.stops.
  pose proof (count_ones (fun i => sol (X j i)) (locations inp)
                (fun i Hi => visit_binary inp sol Hfeas j i Hj Hi)) as Hcount.
  pose proof (max2stops_holds inp sol Hfeas j Hj) as Hmax.
  simpl in Hcount. lia.
Qed.

Lemma at_most_two_stops_witness :
  (Points.stops (Scenario.inputs_of Scenario.wb_far) Scenario.sol_d1_takes_both "d1" <= 2)%nat.
Proof.
  apply (at_most_two_stops (Scenario.inputs_of Scenario.wb_far) Scenario.sol_d1_takes_both "d1").
  - split; vm_compute; reflexivity.
  - left. reflexivity.
Defined.

Lemma map_indexed (g : nat -> Z) (ps : list (string * string)) :
  forall start,
    map (fun e => g (fst e)) (combine (seq start (List.length ps)) ps)
    = map g (seq start (List.length ps)).
Proof.
  induction ps as [| p ps IH]; intros start; simpl; [reflexivity |].
  f_equal. apply IH.
Qed.

Lemma sum_snoc (l : list Z) (z : Z) :
  fold_right Z.add 0 (l ++ [z]) = fold_right Z.add 0 l + z.
Proof. induction l as [| y l IH]; simpl; lia. Qed.

Lemma sum_seq_nonneg (g : nat -> Z) (n : nat) :
  (forall k, (k < n)%nat -> 0 <= g k) -> 0 <= fold_right Z.add 0 (map g (seq 0 n)).
Proof.
  induction n as [| n IH]; intros Hg; [simpl; lia |].
  rewrite seq_S, map_app. cbn [map]. rewrite sum_snoc. cbn [Nat.add].
  assert (0 <= g n) by (apply Hg; lia).
  assert (0 <= fold_right Z.add 0 (map g (seq 0 n))) by (apply IH; intros k Hk; apply Hg; lia).
  lia.
Qed.

(** Two different positions at 1 make a sum of non-negative values at
    least 2. *)
Lemma two_ones_sum (g : nat -> Z) (n : nat) :
  forall a b,
    (forall k, (k < n)%nat -> 0 <= g k) ->
    (a < n)%nat -> (b < n)%nat -> a <> b -> g a = 1 -> g b = 1 ->
    2 <= fold_right Z.add 0 (map g (seq 0 n)).
Proof.
  induction n as [| n IH]; intros a b Hg Ha Hb Hab Ga Gb; [lia |].
  rewrite seq_S, map_app. cbn [map]. rewrite sum_snoc. cbn [Nat.add].
  assert (0 <= g n) by (apply Hg; lia).
  assert (forall k, (k < n)%nat -> 0 <= g k) as Hg' by (intros k Hk; apply Hg; lia).
  assert (forall c, (c < n)%nat -> g c <= fold_right Z.add 0 (map g (seq 0 n))) as Hle.
  { intros c Hc. apply (sum_nonneg_le g (seq 0 n) c).
    - intros k Hk. apply in_seq in Hk. apply Hg'. lia.
    - apply in_seq. lia. }
  destruct (Nat.eq_dec a n) as [-> | Han]; destruct (Nat.eq_dec b n) as [-> | Hbn].
  - congruence.
  - assert (g b <= fold_right Z.add 0 (map g (seq 0 n))) by (apply Hle; lia). lia.
  - assert (g a <= fold_right Z.add 0 (map g (seq 0 n))) by (apply Hle; lia). lia.
  - assert (2 <= fold_right Z.add 0 (map g (seq 0 n)))
      by (apply (IH a b); try assumption; lia).
    lia.
Qed.

(** X5: in a feasible point at most one pairing variable of a driver is
    1, so the travel term charges a driver for at most one pair. *)
Theorem single_active_pair (inp : inputs) (sol : solution) (j : string) (idx idx' : nat) :
  feasible (build inp) sol ->
  In j (drivers inp) ->
  (idx < List.length (pairs inp))%nat ->
  (idx' < List.length (pairs inp))%nat ->
  sol (W j idx) = 1 -> sol (W j idx') = 1 ->
  idx = idx'.
Proof.
  intros Hfeas Hj Hlt Hlt' H1 H1'.
  pose proof (one_pair_per_driver inp sol j Hfeas Hj) as [_ Hone].
  unfold indexed in Hone.
  rewrite (map_indexed (fun idx => sol (W j idx)) (pairs inp) 0%nat) in Hone.
  destruct (Nat.eq_dec idx idx') as [E | E]; [exact E | exfalso].
  pose proof (two_ones_sum (fun idx => sol (W j idx)) (List.length (pairs inp)) idx idx'
                (fun k Hk => proj1 (pair_binary inp sol Hfeas j k Hj Hk))
                Hlt Hlt' E H1 H1') as Hge.
  simpl in Hge. lia.
Qed.

Lemma single_active_pair_witness : 0%nat = 0%nat.
Proof.
  apply (single_active_pair (Scenario.inputs_of Scenario.wb_far)
                            Scenario.sol_d1_takes_both "d1" 0 0).
  - split; vm_compute; reflexivity.
  - left. reflexivity.
  - vm_compute. lia.
  - vm_compute. lia.
  - reflexivity.
  - reflexivity.
Defined.

(** ** The model always has a feasible point *)

Lemma dict_get_map_value {V} (f : string -> V) (l : list string) (k : string) (v : V) :
  dict_get (map (fun j => (j, f j)) l) k = Some v -> v = f k.
Proof.
  induction l as [| a l IH]; simpl; [discriminate |].
  destruct (String.eqb k a) eqn:E.
  - apply String.eqb_eq in E. subst. intros H. now inversion H.
  - exact IH.
Qed.

Lemma demand_of_nonneg (wb : workbook) (inp : inputs) (i : string) :
  result_of (normalize wb) = Ok inp -> 0 <= demand_of inp i.
Proof.
  intros Hn. destruct (normalize_ok wb inp Hn) as [Hd _].
  unfold demand_of. rewrite Hd. unfold groupby_size.
  destruct (dict_get _ i) as [n |] eqn:E; [| lia].
  apply dict_get_map_value in E. subst n. lia.
Qed.

Lemma sum_zeros {A} (l : list A) : fold_right Z.add 0 (map (fun _ => 0) l) = 0.
Proof. induction l as [| a l IH]; simpl; [reflexivity | exact IH]. Qed.

Ltac member_of_family H :=
  repeat match type of H with
         | In _ (_ ++ _) => apply in_app_or in H; destruct H as [H | H]
         end.

(** X6: the built model is never infeasible.  For every workbook that
    passes the normaliser, sending every student with the ride service
    and using no driver satisfies every bound and every constraint. *)
Theorem all_ride_service_feasible (wb : workbook) (inp : inputs) :
  result_of (normalize wb) = Ok inp ->
  feasible (build inp) (Points.all_ride_service inp).
Proof.
  intros Hn. split; apply forallb_forall.
  - intros d Hd. simpl in Hd. unfold declared in Hd. member_of_family Hd;
      repeat match goal with
             | H : In _ (flat_map _ _) |- _ =>
                 apply in_flat_map in H; destruct H as [? [_ H]]
             | H : In _ (map _ _) |- _ =>
                 apply in_map_iff in H; destruct H as [? [<- _]]
             end;
      unfold within; simpl; try reflexivity.
    rewrite andb_true_r. apply Z.leb_le. apply (demand_of_nonneg wb inp _ Hn).
  - intros c Hc. simpl in Hc. member_of_family Hc.
    + unfold cap_link in Hc. apply in_flat_map in Hc. destruct Hc as [j [_ Hc]].
      apply in_map_iff in Hc. destruct Hc as [i [<- _]].
      unfold holds. cbn [c_sense c_lhs c_rhs]. autorewrite with eval.
      cbn [Points.all_ride_service]. apply Z.leb_le. lia.
    + unfold driver_cap in Hc. apply in_map_iff in Hc. destruct Hc as [j [<- _]].
      unfold holds. cbn [c_sense c_lhs c_rhs]. autorewrite with eval.
      cbn [Points.all_ride_service]. rewrite sum_zeros. apply Z.leb_le. lia.
    + unfold use_def in Hc. apply in_map_iff in Hc. destruct Hc as [j [<- _]].
      unfold holds. cbn [c_sense c_lhs c_rhs]. autorewrite with eval.
      cbn [Points.all_ride_service]. rewrite sum_zeros. apply Z.leb_le. lia.
    + unfold max2stops in Hc. apply in_map_iff in Hc. destruct Hc as [j [<- _]].
      unfold holds. cbn [c_sense c_lhs c_rhs]. autorewrite with eval.
      cbn [Points.all_ride_service]. rewrite sum_zeros. apply Z.leb_le. lia.
    + unfold pair_link in Hc. apply in_flat_map in Hc. destruct Hc as [j [_ Hc]].
      apply in_flat_map in Hc. destruct Hc as [e [_ Hc]].
      destruct Hc as [<- | [<- | [<- | []]]];
        unfold holds; cbn [c_sense c_lhs c_rhs]; autorewrite with eval;
        cbn [Points.all_ride_service]; apply Z.leb_le; lia.
    + unfold demand_cover in Hc. apply in_map_iff in Hc. destruct Hc as [i [<- _]].
      unfold holds. cbn [c_sense c_lhs c_rhs]. autorewrite with eval.
      cbn [Points.all_ride_service]. rewrite sum_zeros. apply Z.eqb_eq. lia.
Qed.

Lemma all_ride_service_feasible_witness :
  feasible (build (Scenario.inputs_of Scenario.wb_isolated))
           (Points.all_ride_service (Scenario.inputs_of Scenario.wb_isolated)).
Proof.
  apply (all_ride_service_feasible Scenario.wb_isolated). reflexivity.
Defined.

(** ** Every student is accounted for *)

Lemma indicator_sum (a : string) (ls : list string) :
  NoDup ls -> In a ls ->
  fold_right Z.add 0 (map (fun x => if string_dec a x then 1 else 0) ls) = 1.
Proof.
  induction 1 as [| b ls Hnot Hnd IH]; intros Hin; [destruct Hin |].
  simpl. destruct (string_dec a b) as [-> | Hne].
  - assert (fold_right Z.add 0 (map (fun x => if string_dec b x then 1 else 0) ls) = 0) as ->.
    { clear -Hnot. induction ls as [| c ls IH]; simpl; [reflexivity |].
      destruct (string_dec b c) as [-> | _]; [elim Hnot; now left |].
      apply IH. intros H. apply Hnot. now right. }
    reflexivity.
  - destruct Hin as [-> | Hin]; [now elim Hne |]. rewrite (IH Hin). reflexivity.
Qed.

Lemma sum_add {A} (f g : A -> Z) (l : list A) :
  fold_right Z.add 0 (map (fun a => f a + g a) l)
  = fold_right Z.add 0 (map f l) + fold_right Z.add 0 (map g l).
Proof. induction l as [| a l IH]; simpl; lia. Qed.

Lemma sum_ext {A} (f g : A -> Z) (l : list A) :
  (forall a, In a l -> f a = g a) ->
  fold_right Z.add 0 (map f l) = fold_right Z.add 0 (map g l).
Proof.
  induction l as [| a l IH]; intros H; simpl; [reflexivity |].
  rewrite (H a (or_introl eq_refl)), IH; [reflexivity |]. intros b Hb. apply H. now right.
Qed.

(** Over distinct keys that cover the rows, the counts add up to the
    number of rows. *)
Lemma counts_add_up (rows ls : list string) :
  NoDup ls -> incl rows ls ->
  fold_right Z.add 0 (map (fun x => Z.of_nat (count_occ string_dec rows x)) ls)
  = Z.of_nat (List.length rows).
Proof.
  intros Hnd. induction rows as [| a rows IH]; intros Hincl.
  - simpl. apply sum_zeros.
  - rewrite (sum_ext _ (fun x => (if string_dec a x then 1 else 0)
                                 + Z.of_nat (count_occ string_dec rows x))).
    + rewrite sum_add, indicator_sum, IH.
      * cbn [List.length]. lia.
      * intros x Hx. apply Hincl. now right.
      * assumption.
      * apply Hincl. now left.
    + intros x _. simpl. destruct (string_dec a x); lia.
Qed.

(** X7: in every feasible point, the students picked up by drivers plus
    the students left to the ride service are all the students that the
    sheet gives a location, no more and no fewer. *)
Theorem every_student_accounted_for (wb : workbook) (inp : inputs) (sol : solution) :
  result_of (normalize wb) = Ok inp ->
  feasible (build inp) sol ->
  fold_right Z.add 0 (map (fun i => Spec.picked_at inp sol i) (locations inp))
  + uber_total inp sol
  = Z.of_nat (List.length (present (students_location (students_df wb)))).
Proof.
  intros Hn Hfeas. unfold uber_total. rewrite <- sum_add.
  rewrite (sum_ext _ (fun i => Z.of_nat
                         (count_occ string_dec (present (students_location (students_df wb))) i))).
  - apply counts_add_up; [apply (locations_NoDup wb inp Hn) |].
    intros x Hx. apply (Permutation_in x (locations_sorted_distinct wb inp Hn)).
    now apply nodup_In.
  - intros i Hi. rewrite (demand_cover_holds inp sol Hfeas i Hi).
    apply (demand_counts_students wb inp i Hn Hi).
Qed.

Lemma every_student_accounted_for_witness :
  fold_right Z.add 0
    (map (fun i => Spec.picked_at (Scenario.inputs_of Scenario.wb_far) Scenario.sol_d1_takes_A i)
         (locations (Scenario.inputs_of Scenario.wb_far)))
  + uber_total (Scenario.inputs_of Scenario.wb_far) Scenario.sol_d1_takes_A
  = 2.
Proof.
  apply (every_student_accounted_for Scenario.wb_far (Scenario.inputs_of Scenario.wb_far)
                                     Scenario.sol_d1_takes_A).
  - reflexivity.
  - split; vm_compute; reflexivity.
Defined.

(** ** The pair list, without the filter *)

Lemma later_pairs_In (ls : list string) (i k : string) :
  In (i, k) (Spec.later_pairs ls) -> In i ls /\ In k ls.
Proof.
  induction ls as [| a later IH]; simpl; [intros [] |].
  rewrite in_app_iff, in_map_iff. intros [[x [Heq Hx]] | H].
  - inversion Heq; subst. tauto.
  - destruct (IH H). tauto.
Qed.

Lemma later_pairs_length (ls : list string) :
  2 * Z.of_nat (List.length (Spec.later_pairs ls))
  = Z.of_nat (List.length ls) * (Z.of_nat (List.length ls) - 1).
Proof.
  induction ls as [| a later IH]; [reflexivity |].
  cbn [Spec.later_pairs List.length]. rewrite length_app, length_map. nia.
Qed.

Lemma later_pairs_one_way (ls : list string) (i k : string) :
  NoDup ls -> In (i, k) (Spec.later_pairs ls) ->
  i <> k /\ ~ In (k, i) (Spec.later_pairs ls).
Proof.
  induction 1 as [| a later Hnot Hnd IH]; simpl; [intros [] |].
  rewrite !in_app_iff, !in_map_iff. intros [[x [Heq Hx]] | H].
  - inversion Heq; subst. split.
    + intros ->. now apply Hnot.
    + intros [[y [Heq' Hy]] | H'].
      * inversion Heq'; subst. now apply Hnot.
      * apply later_pairs_In in H'. now apply Hnot.
  - destruct (IH H) as [Hne Hno]. split; [assumption |].
    intros [[y [Heq' Hy]] | H']; [| now apply Hno].
    inversion Heq'; subst. apply later_pairs_In in H. now apply Hnot.
Qed.

Lemma later_pairs_complete (ls : list string) (i k : string) :
  In i ls -> In k ls -> i <> k ->
  In (i, k) (Spec.later_pairs ls) \/ In (k, i) (Spec.later_pairs ls).
Proof.
  induction ls as [| a later IH]; intros Hi Hk Hne; [destruct Hi |].
  simpl. rewrite !in_app_iff, !in_map_iff.
  destruct Hi as [-> | Hi], Hk as [-> | Hk].
  - now elim Hne.
  - left. left. now exists k.
  - right. left. now exists i.
  - destruct (IH Hi Hk Hne); [left | right]; now right.
Qed.

(** X8: for every workbook that passes the normaliser the pair list
    holds each two different demand locations exactly once, in one
    order, and nothing else; with [n] locations it has [n (n - 1) / 2]
    entries, whatever the distance sheet contains. *)
Theorem pair_list_is_every_pair (wb : workbook) (inp : inputs) :
  result_of (normalize wb) = Ok inp ->
  2 * Z.of_nat (List.length (pairs inp))
  = Z.of_nat (List.length (locations inp)) * (Z.of_nat (List.length (locations inp)) - 1)
  /\ (forall i k, In (i, k) (pairs inp) ->
                  In i (locations inp) /\ In k (locations inp)
                  /\ i <> k /\ ~ In (k, i) (pairs inp))
  /\ (forall i k, In i (locations inp) -> In k (locations inp) -> i <> k ->
                  In (i, k) (pairs inp) \/ In (k, i) (pairs inp)).
Proof.
  intros Hn. rewrite (pairs_unfiltered wb inp Hn).
  pose proof (locations_NoDup wb inp Hn) as Hnd.
  split; [apply later_pairs_length | split].
  - intros i k H. destruct (later_pairs_In _ i k H) as [Hi Hk].
    destruct (later_pairs_one_way _ i k Hnd H). tauto.
  - intros i k. apply later_pairs_complete.
Qed.

Lemma pair_list_is_every_pair_witness :
  2 * Z.of_nat (List.length (pairs (Scenario.inputs_of Scenario.wb_isolated)))
  = Z.of_nat (List.length (locations (Scenario.inputs_of Scenario.wb_isolated)))
    * (Z.of_nat (List.length (locations (Scenario.inputs_of Scenario.wb_isolated))) - 1).
Proof.
  apply (pair_list_is_every_pair Scenario.wb_isolated). reflexivity.
Defined.

(** ** Isolated locations and the travel table *)

Lemma isolated_locations_In (dist : distance_sheet) (ls : list string) (i : string) :
  In i (isolated_locations dist ls)
  <-> In i ls /\ (~ In i (dist_index dist) \/ ~ In i (dist_columns dist)).
Proof.
  unfold isolated_locations.
  assert (forall l, In i (StringSort.sort l) <-> In i l) as Hsort.
  { intros l. split; apply Permutation_in;
      [apply Permutation_sym |]; apply StringSort.Permuted_sort. }
  rewrite Hsort, nodup_In, in_app_iff, !filter_In, !negb_true_iff, !mem_not_In. tauto.
Qed.

(** X9: the warning about isolated locations is printed exactly when
    some demand location is missing from the rows or from the columns of
    the distance sheet, and it names exactly those locations. *)
Theorem isolated_warning_names_missing (wb : workbook) (inp : inputs) :
  result_of (normalize wb) = Ok inp ->
  (forall names i,
      In (PrintIsolatedWarning names) (printed (normalize wb)) ->
      (In i names
       <-> In i (locations inp)
           /\ (~ In i (dist_index (dist_df wb)) \/ ~ In i (dist_columns (dist_df wb)))))
  /\ ((exists names, In (PrintIsolatedWarning names) (printed (normalize wb)))
      <-> exists i, In i (locations inp)
                    /\ (~ In i (dist_index (dist_df wb)) \/ ~ In i (dist_columns (dist_df wb)))).
Proof.
  intros Hn. destruct (normalize_ok wb inp Hn) as [Hd [Hl _]].
  assert (locations inp = map fst (groupby_size (students_location (students_df wb)))) as Hlocs
      by (now rewrite Hl, Hd).
  revert Hn. unfold normalize.
  destruct (check_schema_cases wb) as [[Hc _] | [[msg Hc] _]]; rewrite Hc;
    [| discriminate].
  cbn [bind print fst snd app]. rewrite <- Hlocs.
  pose proof (isolated_locations_In (dist_df wb) (locations inp)) as Hiso.
  destruct (isolated_locations (dist_df wb) (locations inp)) as [| a rest] eqn:E;
    simpl; intros _.
  - split.
    + intros names i [H | []]. discriminate H.
    + split.
      * intros [names [H | []]]. discriminate H.
      * intros [i Hi]. apply Hiso in Hi. destruct Hi.
  - split.
    + intros names i [H | [H | []]]; [discriminate H |].
      inversion H; subst names. apply Hiso.
    + split.
      * intros _. exists a. apply Hiso. now left.
      * intros _. exists (a :: rest). right. now left.
Qed.

Lemma isolated_warning_names_missing_witness :
  exists names, In (PrintIsolatedWarning names) (printed (normalize Scenario.wb_isolated)).
Proof.
  apply (isolated_warning_names_missing Scenario.wb_isolated
           (Scenario.inputs_of Scenario.wb_isolated) eq_refl).
  exists "A". split; [left; reflexivity | left; intros []].
Defined.

(** X10: a location that is on neither axis of the distance sheet gets
    the sentinel distance against every location, in both directions. *)
Theorem off_sheet_location_gets_sentinel (dist : distance_sheet) (i k : string) :
  Points.off_sheet dist i ->
  travel_entry dist i k = Py.PyInt BIG_DISTANCE
  /\ travel_entry dist k i = Py.PyInt BIG_DISTANCE.
Proof.
  intros [Hrow Hcol]. apply mem_not_In in Hrow, Hcol.
  split; apply travel_entry_sentinel; unfold Spec.resolvable, Spec.has_entry;
    rewrite Hrow, Hcol; simpl; rewrite ?andb_false_r; reflexivity.
Qed.

Lemma off_sheet_location_gets_sentinel_witness :
  travel_entry Scenario.dist_empty "A" "B" = Py.PyInt BIG_DISTANCE
  /\ travel_entry Scenario.dist_empty "B" "A" = Py.PyInt BIG_DISTANCE.
Proof.
  apply (off_sheet_location_gets_sentinel Scenario.dist_empty "A" "B").
  split; intros [].
Defined.

(** X11: when the distance sheet never holds two different numbers for
    the two directions of a pair, the travel table is symmetric over the
    demand locations. *)
Theorem travel_symmetric_on_consistent_sheet (wb : workbook) (inp : inputs) (i k : string) :
  result_of (normalize wb) = Ok inp ->
  Points.consistent (dist_df wb) ->
  In i (locations inp) -> In k (locations inp) ->
  travel_get (travel inp) i k = travel_get (travel inp) k i.
Proof.
  intros Hn Hcons Hi Hk. destruct (normalize_ok wb inp Hn) as [_ [_ [Ht _]]].
  rewrite Ht, !travel_get_build by assumption.
  apply travel_entry_symmetric. apply Hcons.
Qed.

Lemma travel_symmetric_on_consistent_sheet_witness :
  travel_get (travel (Scenario.inputs_of Scenario.wb_ten)) "A" "B"
  = travel_get (travel (Scenario.inputs_of Scenario.wb_ten)) "B" "A".
Proof.
  apply (travel_symmetric_on_consistent_sheet Scenario.wb_ten).
  - reflexivity.
  - intros i j a b Hij Hji Ha Hb. unfold Spec.has_entry in Hij, Hji. simpl in *.
    destruct (String.eqb i "A") eqn:EiA, (String.eqb i "B") eqn:EiB,
             (String.eqb j "A") eqn:EjA, (String.eqb j "B") eqn:EjB;
      simpl in *; try discriminate;
      repeat match goal with
             | H : String.eqb _ _ = true |- _ => apply String.eqb_eq in H; subst
             end;
      simpl in *; congruence.
  - left. reflexivity.
  - right. left. reflexivity.
Defined.

(** ** Capacities of rows with distinct names *)

Lemma last_row_capacity_absent (names : list string) (j : string) :
  ~ In j names -> forall caps, Spec.last_row_capacity (combine names caps) j = None.
Proof.
  induction names as [| n names IH]; intros Hnot caps; [reflexivity |].
  destruct caps as [| c caps]; [reflexivity |]. simpl.
  rewrite IH by (intros H; apply Hnot; now right).
  destruct (String.eqb j n) eqn:E; [| reflexivity].
  apply String.eqb_eq in E. subst. elim Hnot. now left.
Qed.

Lemma last_row_capacity_nth (names : list string) :
  forall (caps : list Z) (r : nat) (j : string) (c : Z),
    NoDup names ->
    nth_error names r = Some j -> nth_error caps r = Some c ->
    Spec.last_row_capacity (combine names caps) j = Some c.
Proof.
  induction names as [| n names IH]; intros caps r j c Hnd Hj Hc.
  - destruct r; discriminate Hj.
  - destruct caps as [| c0 caps]; [destruct r; discriminate Hc |].
    inversion Hnd as [| n' names' Hnot Hnd']; subst.
    destruct r as [| r]; simpl in Hj, Hc.
    + inversion Hj; inversion Hc; subst. simpl.
      rewrite (last_row_capacity_absent names j Hnot caps).
      now rewrite String.eqb_refl.
    + simpl. now rewrite (IH caps r j c Hnd' Hj Hc).
Qed.

(** X12: when no two rows of the drivers sheet carry the same name,
    every row has the capacity written in that row. *)
Theorem distinct_names_keep_own_capacity (wb : workbook) (inp : inputs) :
  result_of (normalize wb) = Ok inp ->
  NoDup (drivers inp) ->
  Spec.own_capacity inp.
Proof.
  intros Hn Hnd r j c Hj Hc.
  destruct (normalize_ok wb inp Hn) as [_ [_ [_ [_ [_ Hcaps]]]]].
  unfold cap_of. rewrite Hcaps. unfold build_driver_caps.
  now rewrite dict_get_fold_set, (last_row_capacity_nth _ _ r j c Hnd Hj Hc).
Qed.

Lemma distinct_names_keep_own_capacity_witness :
  Spec.own_capacity (Scenario.inputs_of Scenario.wb_near).
Proof.
  apply (distinct_names_keep_own_capacity Scenario.wb_near).
  - reflexivity.
  - repeat constructor; simpl; intros H;
      repeat (destruct H as [H | H]; try discriminate H); assumption.
Defined.

(** ** Rounding of solver values *)

Lemma round_comp (q q' : Q) : (q == q')%Q -> Py.round q = Py.round q'.
Proof.
  intros H. unfold Py.round. rewrite (Qfloor_comp q q' H).
  assert (Qcompare (q - inject_Z (Qfloor q')) (1 # 2)
          = Qcompare (q' - inject_Z (Qfloor q')) (1 # 2)) as ->; [| reflexivity].
  apply Qcompare_comp; [rewrite H |]; reflexivity.
Qed.

(** A float that is an integer rounds to that integer. *)
Lemma round_inject (z : Z) : Py.round (inject_Z z) = z.
Proof.
  unfold Py.round. rewrite Qfloor_Z.
  assert (inject_Z z - inject_Z z == 0)%Q as E by ring.
  now rewrite (Qcompare_comp _ _ E _ _ (Qeq_refl (1 # 2))).
Qed.

Lemma int_round_values_of (sol : solution) (v : var) :
  Py.int_round_or_zero (Points.values_of sol v) = sol v.
Proof. unfold Py.int_round_or_zero, Points.values_of. simpl. apply round_inject. Qed.

Lemma fold_left_Qplus_inject (zs : list Z) :
  forall a : Q,
    (fold_left Qplus (map inject_Z zs) a == a + inject_Z (fold_right Z.add 0%Z zs))%Q.
Proof.
  induction zs as [| z zs IH]; intros a; simpl.
  - change (inject_Z 0) with 0%Q. ring.
  - rewrite IH, inject_Z_plus. ring.
Qed.

(** ** The leftover table *)

Lemma leftover_lookup (r : string -> Z) (ls : list string) (i : string) :
  forall d : list (string * Z),
    dict_get (fold_left (fun d i => if 0 <? r i then dict_set d i (r i) else d) ls d) i
    = if mem i ls && (0 <? r i) then Some (r i) else dict_get d i.
Proof.
  induction ls as [| a ls IH]; intros d; [reflexivity |].
  cbn [fold_left]. rewrite IH. unfold mem. cbn [existsb]. fold (mem i ls).
  destruct (0 <? r i) eqn:Epos.
  - rewrite !andb_true_r. destruct (mem i ls); [now rewrite orb_true_r |].
    rewrite orb_false_r. destruct (String.eqb i a) eqn:E.
    + apply String.eqb_eq in E. subst a.
      now rewrite Epos, dict_get_set, String.eqb_refl.
    + destruct (0 <? r a); [rewrite dict_get_set, E |]; reflexivity.
  - rewrite !andb_false_r. destruct (0 <? r a) eqn:Ea; [| reflexivity].
    rewrite dict_get_set. destruct (String.eqb i a) eqn:E; [| reflexivity].
    apply String.eqb_eq in E. subst. congruence.
Qed.

Lemma leftover_entry (inp : inputs) (value : valuation) (i : string) (n : Z) :
  dict_get (leftover inp value) i = Some n
  <-> In i (locations inp) /\ n = Py.int_round_or_zero (value (Uber i)) /\ 0 < n.
Proof.
  unfold leftover.
  rewrite (leftover_lookup (fun i => Py.int_round_or_zero (value (Uber i))) (locations inp) i []).
  simpl. destruct (mem i (locations inp)) eqn:Em; simpl.
  - apply mem_In in Em.
    destruct (0 <? Py.int_round_or_zero (value (Uber i))) eqn:Ep.
    + apply Z.ltb_lt in Ep. split.
      * intros H. inversion H; subst. tauto.
      * intros [_ [-> _]]. reflexivity.
    + apply Z.ltb_ge in Ep. split; [discriminate | intros [_ [-> H]]; lia].
  - apply mem_not_In in Em. split; [discriminate | tauto].
Qed.

(** X13: the leftover table holds a location exactly when it is a
    demand location whose rounded ride-service value is positive, and it
    holds that rounded value; values that are undefined, zero or
    negative leave no entry. *)
Theorem leftover_lists_positive (inp : inputs) (value : valuation) (i : string) (n : Z) :
  dict_get (leftover inp value) i = Some n
  <-> In i (locations inp) /\ n = Py.int_round_or_zero (value (Uber i)) /\ 0 < n.
Proof. apply leftover_entry. Qed.

Lemma dict_empty_iff {V} (d : list (string * V)) :
  d = [] <-> forall k, dict_get d k = None.
Proof.
  split; [intros -> k; reflexivity |].
  destruct d as [| [k v] d]; [reflexivity |].
  intros H. specialize (H k). simpl in H. rewrite String.eqb_refl in H. discriminate H.
Qed.

Lemma console_no_uber (r : report) :
  In Report.NoUberNeeded (Report.console r) <-> uber r = [].
Proof.
  unfold Report.console. split.
  - intros H. destruct (uber r) as [| e rest] eqn:E; [reflexivity | exfalso].
    destruct H as [H | H]; [discriminate H |].
    apply in_app_or in H. destruct H as [H | H].
    { apply in_map_iff in H. destruct H as [x [H _]]. discriminate H. }
    destruct H as [H | H]; [discriminate H |].
    apply in_app_or in H. destruct H as [H | H].
    { apply in_flat_map in H. destruct H as [x [_ H]].
      destruct (0 <? a_students_picked x); [destruct H as [H | []]; discriminate H | destruct H]. }
    destruct H as [H | H]; [discriminate H |].
    apply in_map_iff in H. destruct H as [x [H _]]. discriminate H.
  - intros ->. right. apply in_or_app. right. right. apply in_or_app. right. right.
    now left.
Qed.

(** X14: after a run that completes, the console says that no ride
    service is needed exactly when no demand location has a positive
    rounded ride-service value. *)
Theorem no_uber_message_iff (inp : inputs) (value : valuation) (r : report) :
  result_of (extract inp value) = Ok r ->
  (In Report.NoUberNeeded (Report.console r)
   <-> forall i, In i (locations inp) -> Py.int_round_or_zero (value (Uber i)) <= 0).
Proof.
  intros Hr.
  assert (uber r = leftover inp value) as Hu.
  { unfold extract in Hr.
    destruct (collect_result inp value (drivers inp) []) as [[rows H] | [msg H]];
      rewrite H in Hr; simpl in Hr; [now inversion Hr | discriminate Hr]. }
  rewrite console_no_uber, Hu, dict_empty_iff. split.
  - intros Hnone i Hi.
    destruct (Z_lt_le_dec 0 (Py.int_round_or_zero (value (Uber i)))) as [Hpos | Hle];
      [| exact Hle].
    assert (dict_get (leftover inp value) i = Some (Py.int_round_or_zero (value (Uber i)))) as H
        by (apply leftover_entry; auto).
    rewrite Hnone in H. discriminate H.
  - intros Hall k. destruct (dict_get (leftover inp value) k) as [n |] eqn:E; [| reflexivity].
    apply leftover_entry in E. destruct E as [Hin [-> Hpos]].
    specialize (Hall k Hin). lia.
Qed.

Lemma no_uber_message_iff_witness :
  In Report.NoUberNeeded
     (Report.console
        {| driver_summary :=
             map (summary_of (Scenario.inputs_of Scenario.wb_ten)
                             (Points.values_of Scenario.sol_d1_takes_both))
                 (drivers (Scenario.inputs_of Scenario.wb_ten));
           driver_assignments :=
             flat_map (rows_of (Scenario.inputs_of Scenario.wb_ten)
                               (Points.values_of Scenario.sol_d1_takes_both))
                      (drivers (Scenario.inputs_of Scenario.wb_ten));
           uber := leftover (Scenario.inputs_of Scenario.wb_ten)
                            (Points.values_of Scenario.sol_d1_takes_both) |}).
Proof.
  apply (no_uber_message_iff (Scenario.inputs_of Scenario.wb_ten)
                             (Points.values_of Scenario.sol_d1_takes_both)).
  - reflexivity.
  - intros i Hi. destruct Hi as [<- | [<- | []]]; vm_compute; discriminate.
Defined.

(** ** Runs that complete *)

Lemma rows_of_In (inp : inputs) (value : valuation) (j : string) (row : assignment_row) :
  In row (rows_of inp value j)
  <-> exists i, In i (locations inp)
                /\ Py.int_round_or_zero (value (Y j i)) <> 0
                /\ row = {| a_driver := j; a_location := i;
                            a_students_picked := Py.int_round_or_zero (value (Y j i));
                            a_stop_flag := Py.int_round_or_zero (value (X j i)) |}.
Proof.
  unfold rows_of. rewrite in_flat_map. split.
  - intros [i [Hi H]]. exists i. split; [assumption |].
    destruct (Py.int_round_or_zero (value (Y j i)) =? 0) eqn:E; [destruct H |].
    apply Z.eqb_neq in E. destruct H as [<- | []]. split; [assumption | reflexivity].
  - intros [i [Hi [Hne ->]]]. exists i. split; [assumption |].
    apply Z.eqb_neq in Hne. rewrite Hne. now left.
Qed.

(** ** Extraction from values that are integers *)

(** X16: when the solver hands back values that are integers, rounding
    changes nothing: the summary of a driver shows its [used] value and
    the sum of its pickups, and its detailed rows are the locations with
    a non-zero pickup, each with that pickup and the visit value. *)
Theorem integral_values_are_reported_exactly (inp : inputs) (sol : solution) (j : string) :
  s_used (summary_of inp (Points.values_of sol) j) = sol (U j)
  /\ s_students_picked_total (summary_of inp (Points.values_of sol) j)
     = fold_right Z.add 0 (map (fun i => sol (Y j i)) (locations inp))
  /\ rows_of inp (Points.values_of sol) j
     = flat_map (fun i => if sol (Y j i) =? 0 then []
                          else [ {| a_driver := j; a_location := i;
                                    a_students_picked := sol (Y j i);
                                    a_stop_flag := sol (X j i) |} ])
                (locations inp).
Proof.
  split; [| split].
  - cbn [s_used summary_of]. apply int_round_values_of.
  - cbn [s_students_picked_total summary_of].
    rewrite <- (round_inject (fold_right Z.add 0 (map (fun i => sol (Y j i)) (locations inp)))).
    apply round_comp.
    assert (map (fun i => Py.or_zero (Points.values_of sol (Y j i))) (locations inp)
            = map inject_Z (map (fun i => sol (Y j i)) (locations inp))) as ->
        by (now rewrite map_map).
    rewrite fold_left_Qplus_inject. ring.
  - unfold rows_of. apply flat_map_ext. intros i.
    now rewrite !int_round_values_of.
Qed.

(** X17: every detailed row extracted from a feasible point that the
    solver hands back shows a stop flag of 1 and at least one student;
    so no row reports a pickup at a location the driver does not visit. *)
Theorem rows_of_feasible_point (inp : inputs) (sol : solution) (j : string)
        (row : assignment_row) :
  feasible (build inp) sol ->
  In j (drivers inp) ->
  In row (rows_of inp (Points.values_of sol) j) ->
  a_stop_flag row = 1 /\ 1 <= a_students_picked row.
Proof.
  intros Hfeas Hj Hrow. apply rows_of_In in Hrow.
  destruct Hrow as [i [Hi [Hne ->]]]. cbn [a_stop_flag a_students_picked].
  rewrite !int_round_values_of in *.
  pose proof (pickup_nonneg inp sol Hfeas j i Hj Hi) as Hy.
  pose proof (cap_link_holds inp sol Hfeas j i Hj Hi) as Hlink.
  pose proof (visit_binary inp sol Hfeas j i Hj Hi) as Hx.
  split; [| lia].
  assert (sol (X j i) = 0 \/ sol (X j i) = 1) as [E | E] by lia; [| exact E].
  rewrite E in Hlink. lia.
Qed.

Lemma rows_of_feasible_point_witness :
  a_stop_flag {| a_driver := "d1"; a_location := "A"; a_students_picked := 1; a_stop_flag := 1 |} = 1
  /\ 1 <= a_students_picked
            {| a_driver := "d1"; a_location := "A"; a_students_picked := 1; a_stop_flag := 1 |}.
Proof.
  apply (rows_of_feasible_point (Scenario.inputs_of Scenario.wb_far)
                                Scenario.sol_d1_takes_A "d1").
  - split; vm_compute; reflexivity.
  - left. reflexivity.
  - vm_compute. left. reflexivity.
Defined.

(** ** Reported travel time and the travel term of the objective *)

Lemma travel_time_fold (inp : inputs) (sol : solution) (j : string)
      (l : list (nat * (string * string))) :
  (forall e, In e l -> sol (W j (fst e)) = 0 \/ sol (W j (fst e)) = 1) ->
  forall a : Q,
    (fold_left (fun t e =>
                  if Py.int_round_or_zero (Points.values_of sol (W j (fst e))) =? 1
                  then (t + pair_cost inp e)%Q else t) l a
     == a + fold_right Qplus 0%Q
              (map (fun e => (pair_cost inp e * inject_Z (sol (W j (fst e))))%Q) l))%Q.
Proof.
  induction l as [| e l IH]; intros Hw a; cbn [fold_left map fold_right].
  - ring.
  - rewrite IH by (intros e' He'; apply Hw; now right).
    rewrite int_round_values_of.
    destruct (Hw e (or_introl eq_refl)) as [E | E]; rewrite E.
    + change (0 =? 1) with false. cbv iota. change (inject_Z 0) with 0%Q. ring.
    + change (1 =? 1) with true. cbv iota. change (inject_Z 1) with 1%Q. ring.
Qed.

Lemma estimated_travel_of_driver (inp : inputs) (sol : solution) (j : string) :
  feasible (build inp) sol ->
  In j (drivers inp) ->
  (travel_time_of inp (Points.values_of sol) j == driver_travel inp sol j)%Q.
Proof.
  intros Hfeas Hj. unfold travel_time_of, driver_travel.
  assert (forall e, In e (indexed (pairs inp)) ->
                    sol (W j (fst e)) = 0 \/ sol (W j (fst e)) = 1) as Hw.
  { intros [idx p] He. simpl.
    assert (idx < List.length (pairs inp))%nat as Hlt.
    { apply indexed_nth in He. apply nth_error_Some. congruence. }
    pose proof (pair_binary inp sol Hfeas j idx Hj Hlt). lia. }
  rewrite (travel_time_fold inp sol j (indexed (pairs inp)) Hw 0%Q).
  apply Qplus_0_l.
Qed.

(** X18: for a feasible point that the solver hands back, the estimated
    travel times of the summary rows add up to the travel total that the
    objective weighs. *)
Theorem estimated_travel_adds_up (inp : inputs) (sol : solution) :
  feasible (build inp) sol ->
  (fold_right Qplus 0%Q
     (map (fun j => s_estimated_travel_time (summary_of inp (Points.values_of sol) j))
          (drivers inp))
   == travel_total inp sol)%Q.
Proof.
  intros Hfeas. unfold travel_total. cbn [s_estimated_travel_time summary_of].
  pose proof (estimated_travel_of_driver inp sol) as Hone.
  induction (drivers inp) as [| j ds IH]; cbn [map fold_right]; [reflexivity |].
  rewrite (Hone j Hfeas (or_introl eq_refl)), IH; [reflexivity |].
  intros j' Hf Hj'. apply Hone; [assumption | now right].
Qed.

Lemma estimated_travel_adds_up_witness :
  (fold_right Qplus 0%Q
     (map (fun j => s_estimated_travel_time
                      (summary_of (Scenario.inputs_of Scenario.wb_ten)
                                  (Points.values_of Scenario.sol_d1_takes_both) j))
          (drivers (Scenario.inputs_of Scenario.wb_ten)))
   == travel_total (Scenario.inputs_of Scenario.wb_ten) Scenario.sol_d1_takes_both)%Q.
Proof.
  apply (estimated_travel_adds_up (Scenario.inputs_of Scenario.wb_ten)
                                  Scenario.sol_d1_takes_both).
  split; vm_compute; reflexivity.
Defined.

(** ** Reported leftover and unused drivers *)

(** X19: for a feasible point that the solver hands back, the leftover
    table lists exactly the demand locations with a positive
    ride-service value, with that value, and never more students than
    the sheet has at the location. *)
Theorem reported_leftover_within_demand (wb : workbook) (inp : inputs) (sol : solution)
        (i : string) (n : Z) :
  result_of (normalize wb) = Ok inp ->
  feasible (build inp) sol ->
  (dict_get (leftover inp (Points.values_of sol)) i = Some n
   <-> In i (locations inp) /\ n = sol (Uber i) /\ 0 < n)
  /\ (dict_get (leftover inp (Points.values_of sol)) i = Some n -> n <= Spec.students_at wb i).
Proof.
  intros Hn Hfeas.
  assert (dict_get (leftover inp (Points.values_of sol)) i = Some n
          <-> In i (locations inp) /\ n = sol (Uber i) /\ 0 < n) as Hiff.
  { rewrite leftover_entry, int_round_values_of. reflexivity. }
  split; [exact Hiff |].
  intros H. apply Hiff in H. destruct H as [Hi [-> _]].
  pose proof (demand_cover_holds inp sol Hfeas i Hi) as Hcover.
  rewrite (demand_counts_students wb inp i Hn Hi) in Hcover.
  pose proof (picked_at_nonneg inp sol i Hfeas Hi). lia.
Qed.

Lemma reported_leftover_within_demand_witness :
  1 <= Spec.students_at Scenario.wb_far "B".
Proof.
  assert (feasible (build (Scenario.inputs_of Scenario.wb_far)) Scenario.sol_d1_takes_A)
    as Hfeas by (split; vm_compute; reflexivity).
  destruct (reported_leftover_within_demand Scenario.wb_far
              (Scenario.inputs_of Scenario.wb_far) Scenario.sol_d1_takes_A "B" 1
              eq_refl Hfeas) as [_ Hle].
  apply Hle. reflexivity.
Defined.

Lemma all_zero_of_sum (x : string -> Z) (ls : list string) :
  (forall i, In i ls -> 0 <= x i) ->
  fold_right Z.add 0 (map x ls) <= 0 ->
  forall i, In i ls -> x i = 0.
Proof.
  intros Hx Hsum i Hi.
  pose proof (sum_nonneg_le x ls i Hx Hi). specialize (Hx i Hi). lia.
Qed.

Lemma filter_none {A} (f : A -> bool) (l : list A) :
  (forall a, In a l -> f a = false) -> filter f l = [].
Proof.
  induction l as [| a l IH]; intros H; [reflexivity |].
  cbn [filter]. rewrite (H a (or_introl eq_refl)). apply IH. intros b Hb. apply H. now right.
Qed.

Lemma flat_map_none {A B} (f : A -> list B) (l : list A) :
  (forall a, In a l -> f a = []) -> flat_map f l = [].
Proof.
  induction l as [| a l IH]; intros H; [reflexivity |].
  cbn [flat_map]. rewrite (H a (or_introl eq_refl)). apply IH. intros b Hb. apply H. now right.
Qed.

(** X20: for a feasible point that the solver hands back, a driver whose
    summary shows [used = 0] has no stop, no student and no detailed
    row. *)
Theorem unused_driver_reports_nothing (inp : inputs) (sol : solution) (j : string) :
  feasible (build inp) sol ->
  In j (drivers inp) ->
  s_used (summary_of inp (Points.values_of sol) j) = 0 ->
  s_stops (summary_of inp (Points.values_of sol) j) = ""
  /\ s_students_picked_total (summary_of inp (Points.values_of sol) j) = 0
  /\ rows_of inp (Points.values_of sol) j = [].
Proof.
  intros Hfeas Hj Hused. cbn [s_used summary_of] in Hused.
  rewrite int_round_values_of in Hused.
  pose proof (use_def_holds inp sol Hfeas j Hj) as Huse.
  pose proof (driver_cap_holds inp sol Hfeas j Hj) as Hcap.
  rewrite Hused, Z.mul_0_r in Huse, Hcap.
  pose proof (all_zero_of_sum (fun i => sol (X j i)) (locations inp)
                (fun i Hi => proj1 (visit_binary inp sol Hfeas j i Hj Hi)) Huse) as Hx.
  pose proof (all_zero_of_sum (fun i => sol (Y j i)) (locations inp)
                (fun i Hi => pickup_nonneg inp sol Hfeas j i Hj Hi) Hcap) as Hy.
  cbv beta in Hx, Hy.
  split; [| split].
  - cbn [s_stops summary_of]. rewrite filter_none; [reflexivity |].
    intros i Hi. now rewrite int_round_values_of, (Hx i Hi).
  - cbn [s_students_picked_total summary_of].
    rewrite <- (round_inject 0). apply round_comp.
    assert (map (fun i => Py.or_zero (Points.values_of sol (Y j i))) (locations inp)
            = map inject_Z (map (fun i => sol (Y j i)) (locations inp))) as ->
        by (now rewrite map_map).
    rewrite fold_left_Qplus_inject.
    rewrite (sum_ext (fun i => sol (Y j i)) (fun _ => 0) (locations inp) Hy), sum_zeros.
    apply Qplus_0_l.
  - unfold rows_of. apply flat_map_none.
    intros i Hi. now rewrite !int_round_values_of, (Hy i Hi).
Qed.

Lemma unused_driver_reports_nothing_witness :
  rows_of (Scenario.inputs_of Scenario.wb_near)
          (Points.values_of Scenario.sol_d1_takes_both) "d2" = [].
Proof.
  apply (unused_driver_reports_nothing (Scenario.inputs_of Scenario.wb_near)
                                       Scenario.sol_d1_takes_both "d2").
  - split; vm_compute; reflexivity.
  - right. left. reflexivity.
  - reflexivity.
Defined.

(** * The script with the calls that can raise *)

(** ** The normaliser on the sheets as read *)

Section Refinement.
Variable py_float : string -> option Q.
Variable py_int : string -> option Z.
Variable raw : Raw.workbook.
Variable cells : list (option string).

Let wb := Script.view py_float py_int raw cells.

Lemma read_cases (i j : string) (val : Py.pyval) :
  Script.read py_float (Raw.distance_of raw) i j val
  = Ok (match dist_loc (dist_df wb) i j with Some q => Py.PyFloat q | None => val end)
  \/ Script.read py_float (Raw.distance_of raw) i j val
     = Raise (ValueError Script.ambiguous_truth_value)
  \/ Script.read py_float (Raw.distance_of raw) i j val
     = Raise (ValueError Script.not_a_float).
Proof.
  unfold Script.read. simpl.
  destruct (_ || _)%bool; [right; left; reflexivity |].
  destruct (Raw.t_cell (Raw.distance_of raw) i j) as [| q | s]; try (left; reflexivity).
  destruct (py_float s); [left | right; right]; reflexivity.
Qed.

Lemma travel_entry_cases (i j : string) :
  Script.travel_entry py_float (Raw.distance_of raw) i j
  = Ok (Normalizer.travel_entry (dist_df wb) i j)
  \/ Script.travel_entry py_float (Raw.distance_of raw) i j
     = Raise (ValueError Script.ambiguous_truth_value)
  \/ Script.travel_entry py_float (Raw.distance_of raw) i j
     = Raise (ValueError Script.not_a_float).
Proof.
  unfold Script.travel_entry, Normalizer.travel_entry.
  change (dist_index (dist_df wb)) with (Raw.t_index (Raw.distance_of raw)).
  change (dist_columns (dist_df wb)) with (Raw.t_columns (Raw.distance_of raw)).
  destruct (mem i (Raw.t_index (Raw.distance_of raw)) && mem j (Raw.t_columns (Raw.distance_of raw))).
  - destruct (read_cases i j (Py.PyInt BIG_DISTANCE)) as [H | [H | H]]; rewrite H; simpl;
      [| right; left; reflexivity | right; right; reflexivity].
    destruct (_ && _ && _)%bool; [| left; reflexivity].
    apply read_cases.
  - simpl. destruct (_ && _)%bool; [| left; reflexivity].
    apply read_cases.
Qed.

Lemma build_travel_cases (locations : list string) :
  Script.build_travel py_float (Raw.distance_of raw) locations
  = Ok (Normalizer.build_travel (dist_df wb) locations)
  \/ Script.build_travel py_float (Raw.distance_of raw) locations
     = Raise (ValueError Script.ambiguous_truth_value)
  \/ Script.build_travel py_float (Raw.distance_of raw) locations
     = Raise (ValueError Script.not_a_float).
Proof.
  unfold Script.build_travel, Normalizer.build_travel.
  assert (forall i js,
             Script.rmap (fun j => Script.rbind
                                     (Script.travel_entry py_float (Raw.distance_of raw) i j)
                                     (fun v => Ok (j, v))) js
             = Ok (map (fun j => (j, Normalizer.travel_entry (dist_df wb) i j)) js)
             \/ Script.rmap (fun j => Script.rbind
                                        (Script.travel_entry py_float (Raw.distance_of raw) i j)
                                        (fun v => Ok (j, v))) js
                = Raise (ValueError Script.ambiguous_truth_value)
             \/ Script.rmap (fun j => Script.rbind
                                        (Script.travel_entry py_float (Raw.distance_of raw) i j)
                                        (fun v => Ok (j, v))) js
                = Raise (ValueError Script.not_a_float)) as Hrow.
  { intros i js. induction js as [| j js IH]; [left; reflexivity |].
    cbn [Script.rmap map].
    destruct (travel_entry_cases i j) as [H | [H | H]]; rewrite H; simpl;
      [| right; left; reflexivity | right; right; reflexivity].
    destruct IH as [H' | [H' | H']]; rewrite H'; simpl;
      [left | right; left | right; right]; reflexivity. }
  assert (forall js ls,
             Script.rmap
               (fun i => Script.rbind
                           (Script.rmap
                              (fun j => Script.rbind
                                          (Script.travel_entry py_float (Raw.distance_of raw) i j)
                                          (fun v => Ok (j, v))) js)
                           (fun row => Ok (i, row))) ls
             = Ok (map (fun i => (i, map (fun j => (j, Normalizer.travel_entry (dist_df wb) i j)) js))
                       ls)
             \/ Script.rmap
                  (fun i => Script.rbind
                              (Script.rmap
                                 (fun j => Script.rbind
                                             (Script.travel_entry py_float (Raw.distance_of raw) i j)
                                             (fun v => Ok (j, v))) js)
                              (fun row => Ok (i, row))) ls
                = Raise (ValueError Script.ambiguous_truth_value)
             \/ Script.rmap
                  (fun i => Script.rbind
                              (Script.rmap
                                 (fun j => Script.rbind
                                             (Script.travel_entry py_float (Raw.distance_of raw) i j)
                                             (fun v => Ok (j, v))) js)
                              (fun row => Ok (i, row))) ls
                = Raise (ValueError Script.not_a_float)) as Hall.
  { intros js ls. induction ls as [| i ls IH]; [left; reflexivity |].
    cbn [Script.rmap map].
    destruct (Hrow i js) as [H | [H | H]]; rewrite H; simpl;
      [| right; left; reflexivity | right; right; reflexivity].
    destruct IH as [H' | [H' | H']]; rewrite H'; simpl;
      [left | right; left | right; right]; reflexivity. }
  apply Hall.
Qed.

Lemma capacities_cases (c : string) :
  Script.rmap (fun r => Script.cell_int py_int (Raw.cell_of r c))
              (Raw.d_rows (Raw.drivers_of raw))
  = Ok (drivers_int (drivers_df wb) c)
  \/ Script.rmap (fun r => Script.cell_int py_int (Raw.cell_of r c))
                 (Raw.d_rows (Raw.drivers_of raw))
     = Raise (ValueError Script.not_an_int).
Proof.
  simpl. induction (Raw.d_rows (Raw.drivers_of raw)) as [| r rows IH]; [left; reflexivity |].
  cbn [Script.rmap map].
  assert (Script.cell_int py_int (Raw.cell_of r c) = Raise (ValueError Script.not_an_int)
          \/ exists z, Script.cell_int py_int (Raw.cell_of r c) = Ok z) as [H | [z H]].
  { unfold Script.cell_int. destruct (Raw.cell_of r c) as [| q | s].
    - now left.
    - right. now eexists.
    - destruct (py_int s); [right; now eexists | now left]. }
  - rewrite H. right. reflexivity.
  - rewrite H. simpl. destruct IH as [H' | H']; rewrite H'; simpl; [left | right]; reflexivity.
Qed.

(** The normaliser on the sheets as read either raises one of the
    script's own [ValueError]s right after the banner, or raises a
    [ValueError] of the library after a passing check, or returns what
    the normaliser of the typed sheets returns, with the same trace. *)
Lemma normalize_cells_cases :
  ((exists msg, Script.normalize_cells py_float py_int raw cells
                = ([PrintBanner], Raise (ValueError msg))
                /\ mem msg Script.schema_messages = true)
   /\ (Spec.sheet_absent wb \/ Spec.checked_column_missing wb))
  \/ ((exists out msg, Script.normalize_cells py_float py_int raw cells
                       = (out, Raise (ValueError msg))
                       /\ mem msg Script.schema_messages = false)
      /\ ~ (Spec.sheet_absent wb \/ Spec.checked_column_missing wb))
  \/ ((exists out inp, Script.normalize_cells py_float py_int raw cells = (out, Ok inp)
                       /\ Normalizer.normalize wb = (out, Ok inp))
      /\ ~ (Spec.sheet_absent wb \/ Spec.checked_column_missing wb)).
Proof.
  unfold Script.normalize_cells, Normalizer.normalize. fold wb.
  assert (students_location (students_df wb) = cells) as Hcells by reflexivity.
  assert (drivers_first (drivers_df wb) = map Raw.first_str (Raw.d_rows (Raw.drivers_of raw)))
    as Hfirst by reflexivity.
  rewrite Hcells, Hfirst.
  destruct (check_schema_cases wb) as [[Hc Hpass] | [[msg Hc] Hfail]]; rewrite Hc.
  - right.
    assert (~ (Spec.sheet_absent wb \/ Spec.checked_column_missing wb)) as Hno
        by (unfold Spec.sheet_absent, Spec.checked_column_missing; tauto).
    set (ls := map fst (groupby_size cells)).
    destruct (build_travel_cases ls) as [Ht | [Ht | Ht]];
      destruct (capacities_cases (capacity_source (drivers_df wb))) as [Hcap | Hcap];
      destruct (isolated_locations (dist_df wb) ls) as [| a rest];
      cbn [bind print when ret Script.lift fst snd app];
      rewrite ?Ht; cbn [bind print when ret Script.lift fst snd app];
      rewrite ?Hcap; cbn [bind print when ret Script.lift fst snd app];
      first [ right; split; [do 2 eexists; split; reflexivity | exact Hno]
            | left; split; [do 2 eexists; split; reflexivity | exact Hno] ].
  - left. split; [| exact Hfail]. exists msg. split; [reflexivity |].
    revert Hc. unfold check_schema.
    destruct (mem SHEET_STUDENT (sheet_names wb)), (mem SHEET_DRIVER (sheet_names wb)),
             (mem SHEET_DISTANCE (sheet_names wb)),
             (mem LOCATION_COL (students_columns (students_df wb))),
             (mem CAPACITY_COL (drivers_columns (drivers_df wb))),
             (mem "num_students" (drivers_columns (drivers_df wb)));
      simpl; intros H; inversion H; reflexivity.
Qed.

End Refinement.

(** ** Adding the constraints *)

(** PuLP accepts the constraints exactly when their rewritten names are
    all different. *)
Lemma add_constraints_cases (pulp_name : string -> string) (cs : list constraint) :
  forall names,
    (Script.add_constraints pulp_name cs names = Ok tt
     /\ NoDup (map (fun c => pulp_name (c_name c)) cs)
     /\ forall c, In c cs -> ~ In (pulp_name (c_name c)) names)
    \/ ((exists msg, Script.add_constraints pulp_name cs names = Raise (PulpError msg))
        /\ ~ (NoDup (map (fun c => pulp_name (c_name c)) cs)
              /\ forall c, In c cs -> ~ In (pulp_name (c_name c)) names)).
Proof.
  induction cs as [| c cs IH]; intros names.
  - left. repeat split; [constructor | intros c []].
  - cbn [Script.add_constraints map].
    destruct (mem (pulp_name (c_name c)) names) eqn:E.
    + right. split; [now eexists |]. apply mem_In in E.
      intros [_ H]. apply (H c); [now left | assumption].
    + apply mem_not_In in E.
      destruct (IH (pulp_name (c_name c) :: names)) as [[Hok [Hnd Hfresh]] | [Hraise Hnot]].
      * left. split; [assumption | split].
        -- constructor; [| assumption]. intros Hin. apply in_map_iff in Hin.
           destruct Hin as [c' [Heq Hc']]. apply (Hfresh c' Hc'). left. now symmetry.
        -- intros c' [<- | Hc']; [assumption |].
           intros Hin. apply (Hfresh c' Hc'). now right.
      * right. split; [assumption |]. intros [Hnd Hfresh]. apply Hnot.
        inversion Hnd as [| x l Hx Hnd']; subst. split; [assumption |].
        intros c' Hc' [Heq | Hin].
        -- apply Hx. apply in_map_iff. exists c'. split; [now symmetry | assumption].
        -- apply (Hfresh c'); [now right | assumption].
Qed.

Lemma build_model_cases (pulp_name : string -> string) (inp : inputs) :
  (Script.build_model pulp_name inp = ([PrintAdjusted], Ok (build inp))
   /\ NoDup (map (fun c => pulp_name (c_name c)) (constraints (build inp))))
  \/ ((exists msg, Script.build_model pulp_name inp = ([], Raise (PulpError msg)))
      /\ ~ NoDup (map (fun c => pulp_name (c_name c)) (constraints (build inp)))).
Proof.
  unfold Script.build_model.
  destruct (add_constraints_cases pulp_name (constraints (build inp)) [])
    as [[Hok [Hnd _]] | [[msg Hr] Hnot]].
  - left. rewrite Hok. split; [reflexivity | assumption].
  - right. rewrite Hr. split; [now exists msg |].
    intros Hnd. apply Hnot. split; [assumption | intros c _ []].
Qed.

(** ** Runs on the sheets as read *)

Section Runs.
Variable py_float : string -> option Q.
Variable py_int : string -> option Z.
Variable pulp_name : string -> string.
Variable cbc : model -> status * valuation.
Variable raw : Raw.workbook.
Variable cells : list (option string).

(** A run whose normaliser raises ends there. *)
Lemma run_cells_normalize_raises (out : list event) (e : exn) :
  Script.normalize_cells py_float py_int raw cells = (out, Raise e) ->
  Script.run_cells py_float py_int pulp_name cbc raw cells = (out, Raise e).
Proof. intros H. unfold Script.run_cells. now rewrite H. Qed.

(** A run whose model PuLP refuses ends there. *)
Lemma run_cells_build_raises (out : list event) (inp : inputs) (msg : string) :
  Script.normalize_cells py_float py_int raw cells = (out, Ok inp) ->
  Script.build_model pulp_name inp = ([], Raise (PulpError msg)) ->
  Script.run_cells py_float py_int pulp_name cbc raw cells = (out, Raise (PulpError msg)).
Proof.
  intros Hn Hb. unfold Script.run_cells. rewrite Hn. cbn [bind]. rewrite Hb.
  cbn [bind]. now rewrite app_nil_r.
Qed.

(** A run that reaches the solver ends as the extractor ends. *)
Lemma run_cells_after_build (out : list event) (inp : inputs) :
  Script.normalize_cells py_float py_int raw cells = (out, Ok inp) ->
  Script.build_model pulp_name inp = ([PrintAdjusted], Ok (build inp)) ->
  result_of (Script.run_cells py_float py_int pulp_name cbc raw cells)
  = result_of (extract inp (snd (cbc (build inp)))).
Proof.
  intros Hn Hb. unfold Script.run_cells. rewrite Hn. cbn [bind]. rewrite Hb. cbn [bind].
  destruct (report_status (fst (cbc (build inp)))) as [o1 r1] eqn:Hr.
  assert (r1 = Ok tt) as ->.
  { unfold report_status in Hr. destruct (negb _); inversion Hr; reflexivity. }
  destruct (extract_result inp (snd (cbc (build inp)))) as [[r H] | [m H]];
    rewrite H; reflexivity.
Qed.

(** A run that reaches the solver is the run on the typed sheets. *)
Lemma run_cells_refines_main (out : list event) (inp : inputs) :
  Script.normalize_cells py_float py_int raw cells = (out, Ok inp) ->
  Script.build_model pulp_name inp = ([PrintAdjusted], Ok (build inp)) ->
  Script.run_cells py_float py_int pulp_name cbc raw cells
  = main cbc (Script.view py_float py_int raw cells).
Proof.
  intros Hn Hb. unfold Script.run_cells, main.
  destruct (normalize_cells_cases py_float py_int raw cells)
    as [[[msg [H _]] _] | [[[o [msg [H _]]] _] | [[o [i [H Ht]]] _]]];
    rewrite H in Hn; try discriminate Hn.
  inversion Hn; subst o i. rewrite H, Ht. cbn [bind]. rewrite Hb. reflexivity.
Qed.

End Runs.

Lemma normalize_some (py_float : string -> option Q) (py_int : string -> option Z)
      (raw : Raw.workbook) (m : M inputs) :
  Script.normalize py_float py_int raw = Some m ->
  exists cells,
    Script.text_cells (Raw.s_location (Raw.students_of raw)) = Some cells
    /\ m = Script.normalize_cells py_float py_int raw cells.
Proof.
  unfold Script.normalize.
  destruct (Script.text_cells _) as [cells |]; simpl; [| discriminate].
  intros H. inversion H. now exists cells.
Qed.

Lemma run_some (py_float : string -> option Q) (py_int : string -> option Z)
      (pulp_name : string -> string) (cbc : model -> status * valuation)
      (raw : Raw.workbook) (cells : list (option string)) :
  Script.text_cells (Raw.s_location (Raw.students_of raw)) = Some cells ->
  Script.run py_float py_int pulp_name cbc raw
  = Some (Script.run_cells py_float py_int pulp_name cbc raw cells).
Proof. intros H. unfold Script.run. now rewrite H. Qed.

(** ** Schema checks *)

(** C7, as stated, fails in both directions.  A students sheet without
    [student_name] lacks a required column and the normaliser returns;
    and with every sheet and every column present, a repeated row label
    of the distance sheet makes the normaliser raise a [ValueError]. *)
Lemma schema_claim_fails_both_ways :
  (exists m,
      Script.normalize RawScenario.no_number RawScenario.no_number
                       RawScenario.raw_no_student_name = Some m
      /\ Script.required_column_missing RawScenario.raw_no_student_name
      /\ Spec.value_error m = false)
  /\ (exists m,
         Script.normalize RawScenario.no_number RawScenario.no_number
                          RawScenario.raw_repeated_label = Some m
         /\ ~ Script.sheet_absent RawScenario.raw_repeated_label
         /\ ~ Script.required_column_missing RawScenario.raw_repeated_label
         /\ Spec.value_error m = true).
Proof.
  split.
  - eexists. split; [reflexivity | split; [| reflexivity]].
    left. simpl. intros [H | []]. discriminate H.
  - eexists. split; [reflexivity | split; [| split; [| reflexivity]]].
    + unfold Script.sheet_absent. simpl. intros [H | [H | H]]; apply H; auto.
    + unfold Script.required_column_missing. simpl.
      intros [H | [H | [H | [H _]]]]; apply H; auto.
Qed.

(** C7, amended: the script's own schema checks end the run with a
    [ValueError] carrying one of their three messages exactly when one
    of the three sheets is absent, the students sheet has no [location]
    column, or the drivers sheet has neither [capacity] nor
    [num_students]; the run then stops after the banner, whatever the
    solver and PuLP would do, so no model is built.  No other column is
    tested.  The library's own [ValueError]s (a repeated distance label,
    a text cell that is no number, a capacity that is blank or no
    integer) come after a passing check and carry none of the three
    messages. *)
Theorem schema_checks_exact (py_float : string -> option Q) (py_int : string -> option Z)
        (raw : Raw.workbook) (m : M inputs) :
  Script.normalize py_float py_int raw = Some m ->
  (Script.schema_error m = true
   <-> Script.sheet_absent raw \/ Script.checked_column_missing raw)
  /\ (Script.schema_error m = true ->
      exists e, m = ([PrintBanner], Raise e)
                /\ forall pulp_name cbc,
                     Script.run py_float py_int pulp_name cbc raw
                     = Some ([PrintBanner], Raise e)).
Proof.
  intros Hm. destruct (normalize_some py_float py_int raw m Hm) as [cells [Hcells ->]].
  change (Script.sheet_absent raw)
    with (Spec.sheet_absent (Script.view py_float py_int raw cells)).
  change (Script.checked_column_missing raw)
    with (Spec.checked_column_missing (Script.view py_float py_int raw cells)).
  destruct (normalize_cells_cases py_float py_int raw cells)
    as [[[msg [Hn Hmsg]] Hs] | [[[out [msg [Hn Hmsg]]] Hs] | [[out [inp [Hn _]]] Hs]]];
    rewrite Hn; unfold Script.schema_error; cbn [result_of snd].
  - rewrite Hmsg. split; [tauto |].
    intros _. exists (ValueError msg). split; [reflexivity |].
    intros pulp_name cbc. rewrite (run_some _ _ _ _ _ cells Hcells).
    now rewrite (run_cells_normalize_raises _ _ _ _ _ _ _ _ Hn).
  - rewrite Hmsg. split; [split; [discriminate | tauto] | discriminate].
  - split; [split; [discriminate | tauto] | discriminate].
Qed.

Lemma schema_checks_exact_witness :
  Script.sheet_absent RawScenario.raw_no_sheet
  \/ Script.checked_column_missing RawScenario.raw_no_sheet.
Proof.
  apply (schema_checks_exact RawScenario.no_number RawScenario.no_number
           RawScenario.raw_no_sheet
           ([PrintBanner],
            Raise (ValueError "Excel must contain sheets named: students, drivers and campus_distance"))
           eq_refl).
  reflexivity.
Defined.

(** ** Driver rows with one name *)

(** A name that two driver rows carry gives two constraints one name,
    and PuLP refuses the model, whatever it rewrites in names. *)
Lemma repeated_driver_name_is_refused (pulp_name : string -> string) (inp : inputs) :
  ~ NoDup (drivers inp) ->
  exists msg, Script.build_model pulp_name inp = ([], Raise (PulpError msg)).
Proof.
  intros Hdup.
  destruct (build_model_cases pulp_name inp) as [[_ Hnd] | [Hraise _]]; [| exact Hraise].
  exfalso. apply Hdup. simpl in Hnd. rewrite !map_app in Hnd.
  apply NoDup_app_remove_l, NoDup_app_remove_r in Hnd.
  unfold driver_cap in Hnd. rewrite map_map in Hnd.
  apply NoDup_map_inv in Hnd. exact Hnd.
Qed.

(** C4, on a drivers sheet with the rows (ann, 1) and (ann, 3): each
    row is in the driver list, but the first row does not have the
    capacity 1 of its row (the name stands for 3), the two rows reach
    the same variables, and the run ends at the first constraint whose
    name comes twice, with a [PulpError], before the model is solved. *)
Theorem same_name_rows_collapse :
  Script.normalize RawScenario.no_number RawScenario.no_number RawScenario.raw_same_name
  = Some ([PrintBanner], Ok (Scenario.inputs_of Scenario.wb_same_name))
  /\ drivers (Scenario.inputs_of Scenario.wb_same_name) = ["ann"; "ann"]
  /\ cap_series (Scenario.inputs_of Scenario.wb_same_name) = [1; 3]
  /\ cap_of (Scenario.inputs_of Scenario.wb_same_name) "ann" = 3
  /\ ~ Spec.own_capacity (Scenario.inputs_of Scenario.wb_same_name)
  /\ ~ Spec.own_variables (Scenario.inputs_of Scenario.wb_same_name)
  /\ forall pulp_name cbc,
       exists msg,
         Script.run RawScenario.no_number RawScenario.no_number pulp_name cbc
                    RawScenario.raw_same_name
         = Some ([PrintBanner], Raise (PulpError msg)).
Proof.
  split; [reflexivity |]. split; [reflexivity |]. split; [reflexivity |].
  split; [reflexivity |]. split; [| split].
  - intros H. specialize (H 0%nat "ann" 1 eq_refl eq_refl). vm_compute in H. discriminate H.
  - intros H. destruct (H 0%nat 1%nat "ann" "ann") as [Hu _];
      try reflexivity; try discriminate. now apply Hu.
  - intros pulp_name cbc.
    destruct (repeated_driver_name_is_refused pulp_name
                (Scenario.inputs_of Scenario.wb_same_name)) as [msg Hb].
    { intros Hnd. inversion Hnd as [| x l Hx _]; subst. apply Hx. now left. }
    exists msg.
    rewrite (run_some RawScenario.no_number RawScenario.no_number pulp_name cbc
                      RawScenario.raw_same_name [Some "A"; Some "B"] eq_refl).
    now rewrite (run_cells_build_raises
                   RawScenario.no_number RawScenario.no_number pulp_name cbc
                   RawScenario.raw_same_name [Some "A"; Some "B"] [PrintBanner]
                   (Scenario.inputs_of Scenario.wb_same_name) msg eq_refl Hb).
Qed.

(** ** Extraction after a solve of any status *)





(** ** Runs that complete, on the sheets as read *)

(** X15: on a workbook with text locations that passes the normaliser,
    and whose model PuLP accepts, a run whose solver gives every [used]
    flag a value returns a summary with one row per row of the drivers
    sheet, in the order of the sheet, and detailed rows that each name
    a driver of the sheet, a demand location and a non-zero rounded
    pickup. *)
Theorem run_completes_when_used_flags_have_values
        (py_float : string -> option Q) (py_int : string -> option Z)
        (pulp_name : string -> string) (cbc : model -> status * valuation)
        (raw : Raw.workbook) (out : list event) (inp : inputs) :
  Script.normalize py_float py_int raw = Some (out, Ok inp) ->
  result_of (Script.build_model pulp_name inp) = Ok (build inp) ->
  (forall j, In j (drivers inp) -> snd (cbc (build inp)) (U j) <> None) ->
  exists m r,
    Script.run py_float py_int pulp_name cbc raw = Some m
    /\ result_of m = Ok r
    /\ map s_driver (driver_summary r) = map Raw.first_str (Raw.d_rows (Raw.drivers_of raw))
    /\ forall row, In row (driver_assignments r) ->
                   In (a_driver row) (map Raw.first_str (Raw.d_rows (Raw.drivers_of raw)))
                   /\ In (a_location row) (locations inp)
                   /\ a_students_picked row <> 0.
Proof.
  intros Hn Hb Hdef.
  destruct (normalize_some py_float py_int raw _ Hn) as [cells [Hcells Hnc]].
  symmetry in Hnc.
  assert (Script.build_model pulp_name inp = ([PrintAdjusted], Ok (build inp))) as Hb'.
  { destruct (build_model_cases pulp_name inp) as [[H _] | [[msg H] _]];
      [exact H | rewrite H in Hb; discriminate Hb]. }
  assert (drivers inp = map Raw.first_str (Raw.d_rows (Raw.drivers_of raw))) as Hd.
  { destruct (normalize_cells_cases py_float py_int raw cells)
      as [[[msg [H _]] _] | [[[o [msg [H _]]] _] | [[o [i [H Ht]]] _]]];
      rewrite H in Hnc; try discriminate Hnc.
    inversion Hnc; subst o i.
    assert (result_of (Normalizer.normalize (Script.view py_float py_int raw cells)) = Ok inp)
      as Hok by (now rewrite Ht).
    now destruct (normalize_ok _ inp Hok) as [_ [_ [_ [Hdrivers _]]]]. }
  eexists. eexists. split; [apply run_some; exact Hcells | split; [| split]].
  - rewrite (run_cells_after_build _ _ _ _ _ _ out inp Hnc Hb').
    now rewrite (extract_completes inp _ Hdef).
  - cbn [driver_summary]. rewrite map_map. cbn [s_driver summary_of].
    rewrite map_id. exact Hd.
  - cbn [driver_assignments]. intros row Hrow.
    apply in_flat_map in Hrow. destruct Hrow as [j [Hj Hrow]].
    apply rows_of_In in Hrow. destruct Hrow as [i [Hi [Hne ->]]].
    cbn [a_driver a_location a_students_picked]. rewrite <- Hd. tauto.
Qed.

Lemma run_completes_when_used_flags_have_values_witness :
  exists m r,
    Script.run RawScenario.no_number RawScenario.no_number RawScenario.same_name
               (Scenario.cbc_returns Scenario.sol_d1_takes_both) RawScenario.raw_ten = Some m
    /\ result_of m = Ok r
    /\ map s_driver (driver_summary r)
       = map Raw.first_str (Raw.d_rows (Raw.drivers_of RawScenario.raw_ten))
    /\ forall row, In row (driver_assignments r) ->
                   In (a_driver row)
                      (map Raw.first_str (Raw.d_rows (Raw.drivers_of RawScenario.raw_ten)))
                   /\ In (a_location row) (locations (Scenario.inputs_of Scenario.wb_ten))
                   /\ a_students_picked row <> 0.
Proof.
  apply (run_completes_when_used_flags_have_values
           RawScenario.no_number RawScenario.no_number RawScenario.same_name
           (Scenario.cbc_returns Scenario.sol_d1_takes_both) RawScenario.raw_ten
           [PrintBanner] (Scenario.inputs_of Scenario.wb_ten)).
  - reflexivity.
  - reflexivity.
  - intros j _. discriminate.
Defined.
